(** * pie: command-line parsing, action execution and the venv context

    A shallow embedding of [pie.py].  Python strings are [string]s, Python
    lists are [list]s, dictionaries and attribute bags are [gmap]s keyed by
    [string].  Code that raises returns a [result]; code that reads or writes
    module-level state or the outside world runs in the monad [M], a state
    and exception monad over [World]. *)

From Stdlib Require Import String Ascii List Arith Lia.
From stdpp Require Import base option list strings gmap.

Import ListNotations.
Open Scope string_scope.
Open Scope list_scope.

(** ** Python exceptions and results *)

Inductive exn : Type :=
| IndexError
| ValueError
| KeyError (key : string)
| TypeError
| AttributeError
| ImportError
| IOError
| Exception (msg : string).

Inductive result (A : Type) : Type :=
| OK (a : A)
| Raise (e : exn).
Arguments OK {A} a.
Arguments Raise {A} e.

(** ** String operations *)

Module Str.

(** [s.split(sep)] for a one-character separator: every occurrence of the
    separator cuts, so a string with [n] separators gives [n+1] pieces. *)
Fixpoint split (sep : ascii) (s : string) : list string :=
  match s with
  | EmptyString => [EmptyString]
  | String a s' =>
      if Ascii.eqb a sep then EmptyString :: split sep s'
      else match split sep s' with
           | piece :: rest => String a piece :: rest
           | [] => [String a EmptyString]
           end
  end.

(** Number of occurrences of a character. *)
Fixpoint count (c : ascii) (s : string) : nat :=
  match s with
  | EmptyString => 0
  | String a s' => (if Ascii.eqb a c then 1 else 0) + count c s'
  end.

(** [s[:n]] *)
Fixpoint take (n : nat) (s : string) : string :=
  match n, s with
  | S n', String a s' => String a (take n' s')
  | _, _ => EmptyString
  end.

(** Truthiness of a string: the empty string is falsy. *)
Definition truthy (s : string) : bool :=
  match s with EmptyString => false | String _ _ => true end.

End Str.

(** ** Regular expressions

    The fragment of Python's [re] that [TASK_RE] is written in, with the
    backtracking semantics of the library: alternatives are tried in
    priority order, repetition and [?] are greedy, and the first way of
    matching the whole pattern wins.  A matcher takes the rest of the
    subject, the groups captured so far and a continuation for what follows
    in the pattern. *)

Module Re.

Inductive re : Type :=
| Lit (c : ascii)                      (* an escaped literal, [\(] *)
| Rep (min : nat) (cls : ascii -> bool) (* [cls+]: [Rep 1]; [cls*]: [Rep 0] *)
| Grp (name : option string) (r : re)  (* [(?P<name>r)], or [(r)] unnamed *)
| Cat (r1 r2 : re)
| Opt (r : re).                        (* [r?] *)

(** The named groups of a match object ([groupdict]) are a
    [gmap string string]; a group that took no part in the match is absent,
    and [group] gives [None] for it. *)

Definition cont : Type :=
  string -> gmap string string -> option (gmap string string).

(** Greedy repetition of a character class: take as many characters as
    possible, and give back one at a time while the rest fails. *)
Fixpoint rep (cls : ascii -> bool) (min n : nat) (s : string)
    (k : string -> option (gmap string string))
    : option (gmap string string) :=
  let stop := if Nat.leb min n then k s else None in
  match s with
  | String a s' =>
      if cls a then
        match rep cls min (S n) s' k with
        | Some g => Some g
        | None => stop
        end
      else stop
  | EmptyString => stop
  end.

(** A group that has matched from [s] up to [s'] captures the text between
    the two. *)
Definition record (name : option string) (s s' : string)
    (g : gmap string string) : gmap string string :=
  match name with
  | Some x => <[x := Str.take (String.length s - String.length s') s]> g
  | None => g
  end.

Fixpoint run (r : re) (s : string) (g : gmap string string) (k : cont)
    : option (gmap string string) :=
  match r with
  | Lit c =>
      match s with
      | String a s' => if Ascii.eqb a c then k s' g else None
      | EmptyString => None
      end
  | Rep min cls => rep cls min 0 s (fun s' => k s' g)
  | Grp name r1 => run r1 s g (fun s' g' => k s' (record name s s' g'))
  | Cat r1 r2 => run r1 s g (fun s' g' => run r2 s' g' k)
  | Opt r1 =>
      match run r1 s g k with
      | Some g' => Some g'
      | None => k s g
      end
  end.

(** [pattern.match(s)]: the pattern must match at the start of [s]; it need
    not reach the end. *)
Definition match_ (r : re) (s : string) : option (gmap string string) :=
  run r s ∅ (fun _ g => Some g).

(** [mo.group(name)] *)
Definition group (mo : gmap string string) (name : string) : option string :=
  mo !! name.

End Re.

Definition not_paren (a : ascii) : bool :=
  negb (Ascii.eqb a "(" || Ascii.eqb a ")").

(** [.] without DOTALL: any character but the newline. *)
Definition dot (a : ascii) : bool := negb (Ascii.eqb a "010").

(** [TASK_RE], the pattern compiled at line 191 of pie.py: a group [name]
    of one or more characters other than parentheses, then optionally an
    unnamed group made of an opening parenthesis, a group [args] of any
    number of characters other than newlines, and a closing parenthesis. *)
Definition TASK_RE : Re.re :=
  Re.Cat (Re.Grp (Some "name") (Re.Rep 1 not_paren))
         (Re.Opt (Re.Grp None
            (Re.Cat (Re.Lit "(")
               (Re.Cat (Re.Grp (Some "args") (Re.Rep 0 dot))
                       (Re.Lit ")"))))).

(** ** Actions *)

(** The subclasses of [Argument].  [Task] carries [name], [args] and
    [kwargs]; [Option] carries [name] and [value]. *)
Inductive Argument : Type :=
| Version
| CreateBatchFile
| Help
| Option (name value : string)
| Task (name : string) (args : list string) (kwargs : gmap string string).

(** ** Command line parsing *)

(** The state of the [while] loop of [parseArguments]: the list bound to the
    local [args], the index [i], and the list [parsed]. *)
Definition loop_state : Type := list string * nat * list Argument.

(** One pass through the body of the loop, entered with [i < len(args)].
    The local [args] starts as the parameter; in the task branch it is
    rebound, first to the text of the [args] group and then to the list of
    its pieces, and it is this list that the loop test and [args[i]] read
    from then on. *)
Definition parse_step (args : list string) (i : nat) (parsed : list Argument)
    : result loop_state :=
  match args !! i with
  | None => Raise IndexError
  | Some arg =>
      if String.eqb arg "-v" then OK (args, i + 1, parsed ++ [Version])
      else if String.eqb arg "-h" then OK (args, i + 1, parsed ++ [Help])
      else if String.eqb arg "-b" then
        OK (args, i + 1, parsed ++ [CreateBatchFile])
      else if String.eqb arg "-o" then
        match args !! (i + 1) with
        | None => Raise IndexError
        | Some nv =>
            match Str.split "=" nv with
            | [name; value] =>
                OK (args, i + 1 + 1, parsed ++ [Option name value])
            | _ => Raise ValueError
            end
        end
      else
        match Re.match_ TASK_RE arg with
        | Some mo =>
            let args1 := Re.group mo "args" in
            let args2 :=
              match args1 with
              | Some a => if Str.truthy a then Str.split "," a else []
              | None => []
              end in
            match Re.group mo "name" with
            | Some name => OK (args2, i + 1, parsed ++ [Task name args2 ∅])
            | None => Raise TypeError (* never: see [TASK_RE_name] *)
            end
        | None => Raise (Exception ("Unknown task format: " +:+ arg))
        end
  end.

(** The loop, with a bound on the number of passes. *)
Fixpoint parse_loop (fuel : nat) (args : list string) (i : nat)
    (parsed : list Argument) : option (result (list Argument)) :=
  match fuel with
  | 0 => None
  | S fuel' =>
      if Nat.ltb i (length args) then
        match parse_step args i parsed with
        | OK (args', i', parsed') => parse_loop fuel' args' i' parsed'
        | Raise e => Some (Raise e)
        end
      else Some (OK parsed)
  end.

(** What is left to read: one for each token from index [i] on, plus its
    length.  Every pass of the loop makes this smaller. *)
Definition weight (args : list string) (i : nat) : nat :=
  list_sum (map (fun t => S (String.length t)) (drop i args)).

(** [parseArguments(args)].  The loop is run with more passes than it can
    take ([parse_loop_enough] below), so the last branch is never reached. *)
Definition parseArguments (args : list string) : result (list Argument) :=
  match parse_loop (S (weight args 1)) args 1 [] with
  | Some r => r
  | None => Raise (Exception "unreachable")
  end.

(** The action of a flag that stands alone, as the usage line gives it:
    [-v] is the version, [-h] the help, [-b] the batch file. *)
Definition flag_action (t : string) : option Argument :=
  if String.eqb t "-v" then Some Version
  else if String.eqb t "-h" then Some Help
  else if String.eqb t "-b" then Some CreateBatchFile
  else None.

(** Every character of a string passes a test. *)
Fixpoint all_chars (f : ascii -> bool) (s : string) : bool :=
  match s with
  | EmptyString => true
  | String a s' => f a && all_chars f s'
  end.

(** The reading of a command line without task calls that the usage line
    describes, used to compare [parseArguments] with: flags one token at a
    time, [-o] with the token after it, which must be one name and one value
    around a single [=]. *)
Fixpoint simple_actions (toks : list string) : option (list Argument) :=
  match toks with
  | [] => Some []
  | t :: rest =>
      match flag_action t with
      | Some a => cons a <$> simple_actions rest
      | None =>
          if String.eqb t "-o" then
            match rest with
            | nv :: rest' =>
                match Str.split "=" nv with
                | [name; value] =>
                    cons (Option name value) <$> simple_actions rest'
                | _ => None
                end
            | [] => None
            end
          else None
      end
  end.

(** What can be said of an action that comes out of the parser: an option
    holds no [=] in its name or its value; a task has a name that is not
    empty and holds no parenthesis, arguments that hold no comma and no
    newline and are not the one empty string, and no keyword argument. *)
Definition well_parsed (x : Argument) : Prop :=
  match x with
  | Option name value => Str.count "=" name = 0 /\ Str.count "=" value = 0
  | Task name args kwargs =>
      name <> "" /\ all_chars not_paren name = true /\
      args <> [""] /\
      Forall (fun a => Str.count "," a = 0 /\ all_chars dot a = true) args /\
      kwargs = ∅
  | _ => True
  end.

(** The positional arguments that the task branch makes of the text of the
    [args] group: none for no text, else the pieces between commas. *)
Definition call_args (a : string) : list string :=
  if Str.truthy a then Str.split "," a else [].

(** ** The world the program runs in *)

(** What the process does to the outside: lines printed, files written,
    shell commands launched, modules imported. *)
Inductive Event : Type :=
| Print (line : string)
| WriteFile (path text : string)
| Shell (c : string)
| Import (module : string).

(** The module-level state of [pie]: [options] and [context] are [Lookup]
    objects, that is their attribute dictionaries; [tasks] is the registry
    of task functions.  [trace] is the log of events so far. *)
Record World (TaskFn : Type) : Type := mkWorld {
  options : gmap string string;
  context : gmap string string;
  tasks : gmap string TaskFn;
  trace : list Event
}.
Arguments mkWorld {TaskFn}.
Arguments options {TaskFn}.
Arguments context {TaskFn}.
Arguments tasks {TaskFn}.
Arguments trace {TaskFn}.

(** How a piece of code ends: it returns a value or raises, and either way
    leaves a world behind. *)
Inductive outcome (W A : Type) : Type :=
| Ret (a : A) (w : W)
| Raised (e : exn) (w : W).
Arguments Ret {W A} a w.
Arguments Raised {W A} e w.

Definition M (TaskFn A : Type) : Type := World TaskFn -> outcome (World TaskFn) A.

#[global] Instance M_ret {TaskFn} : MRet (M TaskFn) := fun A a w => Ret a w.

#[global] Instance M_bind {TaskFn} : MBind (M TaskFn) := fun A B f m w =>
  match m w with
  | Ret a w' => f a w'
  | Raised e w' => Raised e w'
  end.

Definition raise {TaskFn A} (e : exn) : M TaskFn A := fun w => Raised e w.

(** The world a piece of code leaves behind, whether it returns or raises. *)
Definition ends_in {W A} (o : outcome W A) (w' : W) : Prop :=
  match o with
  | Ret _ w => w = w'
  | Raised _ w => w = w'
  end.

(** The attribute names that [setattr] refuses on a [Lookup]. *)
Definition guarded (name : string) : bool :=
  String.eqb name "__class__" || String.eqb name "__dict__"
  || String.eqb name "__weakref__".

Definition emit {TaskFn} (ev : Event) : M TaskFn unit := fun w =>
  Ret tt (mkWorld (options w) (context w) (tasks w) (trace w ++ [ev])).

(** [for x in l: body(x)] *)
Fixpoint for_ {TaskFn A} (l : list A) (body : A -> M TaskFn unit) : M TaskFn unit :=
  match l with
  | [] => mret tt
  | x :: l' => body x ;; for_ l' body
  end.

(** [setattr(obj,name,value)] on a [Lookup] with a string value: the
    attribute goes into the instance dictionary, except for the three names
    that [object] guards with a data descriptor. *)
Definition setattr (d : gmap string string) (name value : string)
    : result (gmap string string) :=
  if String.eqb name "__class__" then Raise TypeError
  else if String.eqb name "__dict__" then Raise TypeError
  else if String.eqb name "__weakref__" then Raise AttributeError
  else OK (<[name := value]> d).

Definition __VERSION__ : string := "0.0.1".

Definition nl : string := String "010" EmptyString.
Definition dquote : string := String "034" EmptyString.

(** The launcher line written by [-b]. *)
Definition launcher : string :=
  "python -c " +:+ dquote +:+ "import pie; pie.main()" +:+ dquote +:+ " %*" +:+ nl.

(** A sample environment, used where a statement is tried on concrete
    input: no task functions, a [pie_tasks] module that registers nothing,
    a writable directory. *)
Definition no_call : Empty_set -> list string -> gmap string string -> M Empty_set unit :=
  fun f _ _ => match f with end.
Definition empty_module : M Empty_set unit := mret tt.
Definition missing_module : M Empty_set unit := raise ImportError.
Definition world0 : World Empty_set := mkWorld ∅ ∅ ∅ [].

(** A second sample environment: a task function is a name and a greeting,
    and calling it prints the greeting and then each positional argument. *)
Definition echo_call : string * string -> list string -> gmap string string
    -> M (string * string) unit :=
  fun f args _ => for_ (snd f :: args) (fun line => emit (Print line)).
Definition echo_name : string * string -> string := fst.
Definition echo_world : World (string * string) := mkWorld ∅ ∅ ∅ [].
Definition world_x : World Empty_set := mkWorld (<["x" := "1"]> ∅) ∅ ∅ [].
Definition build_module : M (string * string) unit := fun w =>
  Ret tt (mkWorld (options w) (context w)
                  (<["build" := ("build", "building")]> (tasks w)) (trace w)).
Definition build_world : World (string * string) :=
  mkWorld ∅ ∅ (<["build" := ("build", "building")]> ∅) [].
Definition echo_module : M (string * string) unit := fun w =>
  Ret tt (mkWorld (options w) (context w)
                  (<["greet" := ("greet", "hello")]> (tasks w)) (trace w)).

Section Pie.

(** Task functions are opaque: [call f args kwargs] is what calling [f] with
    positional [args] and keyword [kwargs] does.  [pie_tasks] is what running
    the body of the user's [pie_tasks] module does.  [WINDOWS] is
    [os.name=='nt'], and [writable p] tells whether [open(p,'w')] succeeds. *)
Context {TaskFn : Type}.
Variable call : TaskFn -> list string -> gmap string string -> M TaskFn unit.
Variable pie_tasks : M TaskFn unit.
Variable WINDOWS : bool.
Variable writable : string -> bool.

Local Abbreviation M := (M TaskFn).

Definition print (line : string) : M unit := emit (Print line).

(** [with open(path,'w') as fout: fout.write(text)] *)
Definition write_file (path text : string) : M unit :=
  if writable path then emit (WriteFile path text) else raise IOError.

(** [import pie_tasks] *)
Definition import_pie_tasks : M unit :=
  emit (Import "pie_tasks") ;; pie_tasks.

(** *** Operations *)

(** [subprocess.call(c,shell=True)]; the exit status is dropped. *)
Definition cmd (c : string) : M unit := emit (Shell c).

Definition pip (c : string) : M unit := cmd ("python -m pip " +:+ c).

Record venv : Type := { path : string }.

Definition __enter__ (self : venv) : M venv :=
  (* push onto pie.context *)
  mret self.

(** [exc] is [None] when the block ended normally.  The value returned is
    the truth value of what [__exit__] returns, here [None]. *)
Definition __exit__ (self : venv) (exc : option exn) : M bool :=
  (* pop from pie.context *)
  match exc with
  | None => mret false
  | Some _ => raise (Exception "I dunno")
  end.

(** [with mgr: body]: enter, run the block, and call [__exit__] with the
    exception the block raised, if any.  An exception raised by [__exit__]
    takes the place of the block's; otherwise the block's exception goes on
    unless [__exit__] returned true. *)
Definition with_ (mgr : venv) (body : venv -> M unit) : M unit := fun w =>
  match __enter__ mgr w with
  | Raised e w1 => Raised e w1
  | Ret v w1 =>
      match body v w1 with
      | Ret _ w2 =>
          match __exit__ mgr None w2 with
          | Ret _ w3 => Ret tt w3
          | Raised e' w3 => Raised e' w3
          end
      | Raised e w2 =>
          match __exit__ mgr (Some e) w2 with
          | Ret true w3 => Ret tt w3
          | Ret false w3 => Raised e w3
          | Raised e' w3 => Raised e' w3
          end
      end
  end.


(** *** Executing actions *)

Definition Version_execute : M unit := print ("pie v" +:+ __VERSION__).

Definition CreateBatchFile_execute : M unit :=
  if WINDOWS then write_file "pie.bat" ("@echo off" +:+ nl +:+ launcher)
  else write_file "pie" launcher.

Definition Help_execute : M unit :=
  print "Usage:  pie -v | -h | -b | {-o name=value | task[(args...)]}" ;;
  print ("Version: v" +:+ __VERSION__) ;;
  print "" ;;
  print "  -v    Display version" ;;
  print "  -h    Display this help" ;;
  print "  -b    Create batch file shortcut" ;;
  print "  -o    Sets an option with name to value" ;;
  print "  task  Runs a task passing through arguments if required".

Definition Option_execute (name value : string) : M unit := fun w =>
  match setattr (options w) name value with
  | OK d => Ret tt (mkWorld d (context w) (tasks w) (trace w))
  | Raise e => Raised e w
  end.

Definition Task_execute (name : string) (args : list string)
    (kwargs : gmap string string) : M unit := fun w =>
  match tasks w !! name with
  | Some f => call f args kwargs w
  | None => Raised (KeyError name) w
  end.

(** [a.execute()], by the class of [a]. *)
Definition execute (a : Argument) : M unit :=
  match a with
  | Version => Version_execute
  | CreateBatchFile => CreateBatchFile_execute
  | Help => Help_execute
  | Option name value => Option_execute name value
  | Task name args kwargs => Task_execute name args kwargs
  end.

(** *** Entry point *)

(** [main()], with [sys.argv] as a parameter. *)
Definition main (argv : list string) : M unit :=
  match parseArguments argv with
  | Raise e => raise e
  | OK args =>
      match args with
      | _ :: _ => import_pie_tasks ;; for_ args execute
      | [] => Help_execute
      end
  end.

(** *** Registering tasks *)

(** [taskFn.__name__], the name a task function was defined under. *)
Variable __name__ : TaskFn -> string.

(** The function [wrapper] that the decorator returns for [taskFn]: it
    passes its arguments on to [taskFn]. *)
Definition wrapper (taskFn : TaskFn) (args : list string)
    (kwargs : gmap string string) : M unit :=
  call taskFn args kwargs.

(** [decorator(taskFn)]: the function itself, not the wrapper, goes into
    [tasks] under its name, and the wrapper is returned. *)
Definition decorator (taskFn : TaskFn)
    : M (list string -> gmap string string -> M unit) := fun w =>
  Ret (wrapper taskFn)
      (mkWorld (options w) (context w)
               (<[__name__ taskFn := taskFn]> (tasks w)) (trace w)).

(** [task(parameters)]; the parameters, a list of [Lookup] objects, are not
    looked at. *)
Definition task (parameters : list (gmap string string))
    (taskFn : TaskFn) : M (list string -> gmap string string -> M unit) :=
  decorator taskFn.

(** * Properties *)

(** ** Splitting *)

Lemma split_nonempty sep s : Str.split sep s <> [].
Proof.
  destruct s as [|a s]; simpl; [discriminate|].
  destruct (Ascii.eqb a sep); [discriminate|].
  destruct (Str.split sep s); discriminate.
Qed.

Lemma split_length sep s : length (Str.split sep s) = S (Str.count sep s).
Proof.
  induction s as [|a s IH]; simpl; [reflexivity|].
  destruct (Ascii.eqb a sep); simpl; [now rewrite IH|].
  destruct (Str.split sep s); simpl in *; congruence.
Qed.

(** The pieces of a split, with one separator between each two, are as long
    as the string that was split. *)
Lemma split_weight sep s :
  list_sum (map (fun t => S (String.length t)) (Str.split sep s))
  = S (String.length s).
Proof.
  induction s as [|a s IH]; simpl; [reflexivity|].
  destruct (Ascii.eqb a sep); simpl; [now rewrite IH|].
  destruct (Str.split sep s) as [|piece rest]; simpl in *; lia.
Qed.

Lemma split_none sep s : Str.count sep s = 0 -> Str.split sep s = [s].
Proof.
  induction s as [|a s IH]; simpl; [reflexivity|].
  destruct (Ascii.eqb a sep); simpl; [discriminate|].
  intros H. now rewrite (IH H).
Qed.

Lemma split_append sep a v :
  Str.count sep a = 0 ->
  Str.split sep (a +:+ String sep v) = a :: Str.split sep v.
Proof.
  induction a as [|c a IH]; simpl.
  - intros _. now rewrite Ascii.eqb_refl.
  - destruct (Ascii.eqb c sep); simpl; [discriminate|].
    intros H. now rewrite (IH H).
Qed.

Lemma take_length n s : String.length (Str.take n s) <= String.length s.
Proof.
  revert s. induction n as [|n IH]; intros [|a s]; simpl; try lia.
  specialize (IH s). lia.
Qed.

(** ** The matcher *)

(** Whatever holds of every result of the continuation on a suffix holds of
    the result of a repetition. *)
Lemma rep_inv (P : gmap string string -> Prop) cls min s : forall n k,
  (forall s' c, String.length s' <= String.length s -> k s' = Some c -> P c) ->
  forall c, Re.rep cls min n s k = Some c -> P c.
Proof.
  induction s as [|a s IH]; intros n k Hk c; simpl.
  - destruct (Nat.leb min n); [|discriminate]. apply Hk. simpl. lia.
  - assert (Hstop : (if Nat.leb min n then k (String a s) else None) = Some c -> P c).
    { destruct (Nat.leb min n); [|discriminate]. apply Hk. lia. }
    destruct (cls a); [|exact Hstop].
    destruct (Re.rep cls min (S n) s k) as [c'|] eqn:E; [|exact Hstop].
    intros [= <-]. eapply IH; [|exact E].
    intros s' c0 Hle. apply Hk. simpl. lia.
Qed.

(** An invariant of the groups that every capture of a piece of the subject
    keeps, and that holds at the start, holds when the continuation is
    reached; so what the continuation ensures under it holds of the match. *)
Lemma run_inv (I P : gmap string string -> Prop) (N : nat) :
  (forall name s s' g, String.length s <= N -> I g -> I (Re.record name s s' g)) ->
  forall r s g k,
  String.length s <= N -> I g ->
  (forall s' g' c, String.length s' <= String.length s -> I g' ->
                   k s' g' = Some c -> P c) ->
  forall c, Re.run r s g k = Some c -> P c.
Proof.
  intros Hrec. induction r as [ch|min cls|name r IH|r1 IH1 r2 IH2|r IH];
    intros s g k Hs Hg Hk c; simpl.
  - destruct s as [|a s]; [discriminate|].
    destruct (Ascii.eqb a ch); [|discriminate].
    apply Hk; [simpl; lia|exact Hg].
  - apply rep_inv. intros s' c' Hle. now apply Hk.
  - apply IH; [exact Hs|exact Hg|].
    intros s' g' c' Hle Hg'. apply Hk; [exact Hle|]. now apply Hrec.
  - apply IH1; [exact Hs|exact Hg|].
    intros s' g' c' Hle Hg'. apply IH2; [lia|exact Hg'|].
    intros s'' g'' c'' Hle'. apply Hk. lia.
  - destruct (Re.run r s g k) as [c'|] eqn:E.
    + intros [= <-]. eapply IH; [exact Hs|exact Hg|exact Hk|exact E].
    + now apply Hk.
Qed.

(** A repetition whose continuation cannot fail succeeds as soon as the
    minimum is reached. *)
Lemma rep_total cls min s : forall n k,
  (forall s', is_Some (k s')) -> min <= n -> is_Some (Re.rep cls min n s k).
Proof.
  induction s as [|a s IH]; intros n k Hk Hn; simpl;
    destruct (Nat.leb_spec min n); try lia; [apply Hk|].
  destruct (cls a); [|apply Hk].
  destruct (IH (S n) k Hk ltac:(lia)) as [c ->]. eauto.
Qed.

(** Every group of a match is a piece of the subject. *)
Lemma match_group_length r s mo x v :
  Re.match_ r s = Some mo -> Re.group mo x = Some v ->
  String.length v <= String.length s.
Proof.
  unfold Re.match_, Re.group. intros Hm. revert x v.
  pattern mo. revert mo Hm.
  apply (run_inv (fun g => forall x v, g !! x = Some v ->
                                       String.length v <= String.length s)
                 _ (String.length s)).
  - intros [name|] s1 s2 g H1 Hg x v; simpl; [|apply Hg].
    destruct (decide (name = x)) as [->|Hne].
    + rewrite lookup_insert_eq. intros [= <-].
      etransitivity; [apply take_length|exact H1].
    + rewrite lookup_insert_ne by exact Hne. apply Hg.
  - lia.
  - intros x v. rewrite lookup_empty. discriminate.
  - intros s' g' c _ Hg' [= <-]. exact Hg'.
Qed.

(** [TASK_RE] fails exactly on the empty token and on a token that starts
    with a parenthesis. *)
Lemma TASK_RE_match_None arg :
  Re.match_ TASK_RE arg = None <->
  match arg with
  | EmptyString => True
  | String a _ => not_paren a = false
  end.
Proof.
  unfold Re.match_, TASK_RE.
  cbn [Re.run]. destruct arg as [|a s]; cbn [Re.rep Nat.leb]; [split; auto|].
  destruct (not_paren a) eqn:Ea; [|split; auto].
  split; [|discriminate].
  match goal with |- context [Re.rep ?cls ?m ?n ?s ?k] =>
    destruct (rep_total cls m s n k) as [c ->] end; [| lia | discriminate].
  intros s'.
  match goal with |- is_Some (match ?x with _ => _ end) => destruct x end; eauto.
Qed.

(** The [name] group takes part in every match of [TASK_RE]. *)
Lemma TASK_RE_name arg mo :
  Re.match_ TASK_RE arg = Some mo -> is_Some (Re.group mo "name").
Proof.
  unfold Re.match_, TASK_RE, Re.group. cbn [Re.run].
  revert mo. apply rep_inv. intros s' c _.
  assert (Hname : is_Some (Re.record (Some "name") arg s' ∅ !! "name")).
  { simpl. rewrite lookup_insert_eq. eauto. }
  match goal with |- match ?x with _ => _ end = _ -> _ =>
    destruct x as [c'|] eqn:E end; intros [= <-]; [|exact Hname].
  destruct s' as [|a s1]; [discriminate|].
  destruct (Ascii.eqb a "("); [|discriminate].
  revert c' E. apply rep_inv. intros s2 c' _.
  destruct s2 as [|b s3]; [discriminate|].
  destruct (Ascii.eqb b ")"); [|discriminate].
  intros [= <-]. simpl. rewrite lookup_insert_ne by discriminate.
  simpl in Hname. exact Hname.
Qed.

(** ** The loop of [parseArguments] ends *)

Lemma weight_lookup args i arg :
  args !! i = Some arg ->
  weight args i = S (String.length arg) + weight args (S i).
Proof. intros H. unfold weight. now rewrite (drop_S _ _ _ H). Qed.

Lemma weight_drop_le (l : list string) n :
  list_sum (map (fun t => S (String.length t)) (drop n l))
  <= list_sum (map (fun t => S (String.length t)) l).
Proof.
  revert n. induction l as [|x l IH]; intros [|n]; simpl; try lia.
  specialize (IH n). lia.
Qed.

Lemma weight_S_le args i : weight args (S i) <= weight args i.
Proof.
  unfold weight. destruct (args !! i) as [arg|] eqn:E.
  - rewrite (drop_S _ _ _ E). simpl. lia.
  - apply lookup_ge_None in E. rewrite !drop_ge by lia. simpl. lia.
Qed.

Lemma weight_S_lt (l : list string) i :
  l <> [] ->
  weight l (S i) < list_sum (map (fun t => S (String.length t)) l).
Proof.
  unfold weight. destruct l as [|x l]; simpl; [congruence|]. intros _.
  pose proof (weight_drop_le l i). lia.
Qed.

Lemma parse_step_weight args i parsed args' i' parsed' :
  parse_step args i parsed = OK (args', i', parsed') ->
  weight args' i' < weight args i.
Proof.
  unfold parse_step. destruct (args !! i) as [arg|] eqn:Ei; [|discriminate].
  rewrite (weight_lookup _ _ _ Ei).
  assert (Hflag : weight args (i + 1)
                  < S (String.length arg) + weight args (S i)).
  { replace (i + 1) with (S i) by lia. lia. }
  destruct (String.eqb arg "-v"); [intros [= <- <- <-]; exact Hflag|].
  destruct (String.eqb arg "-h"); [intros [= <- <- <-]; exact Hflag|].
  destruct (String.eqb arg "-b"); [intros [= <- <- <-]; exact Hflag|].
  destruct (String.eqb arg "-o").
  - destruct (args !! (i + 1)); [|discriminate].
    destruct (Str.split "=" s) as [|name [|value [|]]]; try discriminate.
    intros [= <- <- <-].
    pose proof (weight_S_le args (i + 1)).
    replace (i + 1 + 1) with (S (i + 1)) by lia. lia.
  - destruct (Re.match_ TASK_RE arg) as [mo|] eqn:Em; [|discriminate].
    destruct (Re.group mo "name"); [|discriminate].
    intros [= <- <- <-]. replace (i + 1) with (S i) by lia.
    destruct (Re.group mo "args") as [a|] eqn:Ea;
      [|unfold weight; rewrite drop_nil; simpl; lia].
    destruct (Str.truthy a);
      [|unfold weight; rewrite drop_nil; simpl; lia].
    pose proof (weight_S_lt (Str.split "," a) i (split_nonempty _ _)) as Hlt.
    rewrite split_weight in Hlt.
    pose proof (match_group_length _ _ _ _ _ Em Ea). lia.
Qed.

(** With more fuel than the weight of what is left, the loop ends. *)
Lemma parse_loop_enough fuel : forall args i parsed,
  weight args i < fuel -> is_Some (parse_loop fuel args i parsed).
Proof.
  induction fuel as [|fuel IH]; intros args i parsed Hw; [lia|]. simpl.
  destruct (Nat.ltb i (length args)); [|eauto].
  destruct (parse_step args i parsed) as [[[args' i'] parsed']|e] eqn:E; [|eauto].
  apply IH. apply parse_step_weight in E. lia.
Qed.

(** More fuel does not change the result. *)
Lemma parse_loop_mono fuel : forall args i parsed r fuel',
  parse_loop fuel args i parsed = Some r -> fuel <= fuel' ->
  parse_loop fuel' args i parsed = Some r.
Proof.
  induction fuel as [|fuel IH]; intros args i parsed r fuel' H Hle;
    [discriminate|].
  destruct fuel' as [|fuel']; [lia|]. simpl in *.
  destruct (Nat.ltb i (length args)); [|exact H].
  destruct (parse_step args i parsed) as [[[args' i'] parsed']|e]; [|exact H].
  eapply IH; [exact H|lia].
Qed.

(** [parseArguments] is the result of the loop, whatever fuel gives one. *)
Lemma parseArguments_loop args fuel r :
  parse_loop fuel args 1 [] = Some r -> parseArguments args = r.
Proof.
  intros H. unfold parseArguments.
  destruct (parse_loop_enough (S (weight args 1)) args 1 []) as [r' Hr'];
    [lia|]. rewrite Hr'.
  pose proof (parse_loop_mono _ _ _ _ _ (fuel + S (weight args 1)) H ltac:(lia)) as H1.
  pose proof (parse_loop_mono _ _ _ _ _ (fuel + S (weight args 1)) Hr' ltac:(lia)) as H2.
  congruence.
Qed.

Lemma parseArguments_terminates args :
  exists fuel, parse_loop fuel args 1 [] = Some (parseArguments args).
Proof.
  exists (S (weight args 1)). unfold parseArguments.
  destruct (parse_loop_enough (S (weight args 1)) args 1 []) as [r ->];
    [lia|reflexivity].
Qed.

(** ** What the parser returns *)

Lemma parse_step_option args i parsed :
  args !! i = Some "-o" ->
  parse_step args i parsed =
  match args !! (i + 1) with
  | None => Raise IndexError
  | Some nv =>
      match Str.split "=" nv with
      | [name; value] => OK (args, i + 1 + 1, parsed ++ [Option name value])
      | _ => Raise ValueError
      end
  end.
Proof. unfold parse_step. intros ->. reflexivity. Qed.

Lemma split_name_value name value :
  Str.count "=" name = 0 -> Str.count "=" value = 0 ->
  Str.split "=" (name +:+ "=" +:+ value) = [name; value].
Proof.
  intros Hn Hv. change ("=" +:+ value) with (String "=" value).
  rewrite (split_append _ _ _ Hn). now rewrite (split_none _ _ Hv).
Qed.

Lemma split_not_pair nv :
  Str.count "=" nv <> 1 ->
  match Str.split "=" nv with
  | [name; value] => OK (A:=loop_state) ([], 0, [Option name value])
  | _ => Raise ValueError
  end = Raise ValueError.
Proof.
  intros H. pose proof (split_length "=" nv) as Hl.
  destruct (Str.split "=" nv) as [|name [|value [|]]]; try reflexivity.
  simpl in Hl. lia.
Qed.

(** A pass of the loop keeps the keyword arguments of every task parsed so
    far, and gives the task it adds none. *)
Lemma parse_step_kwargs args i parsed args' i' parsed' :
  parse_step args i parsed = OK (args', i', parsed') ->
  (forall name a kw, Task name a kw ∈ parsed -> kw = ∅) ->
  forall name a kw, Task name a kw ∈ parsed' -> kw = ∅.
Proof.
  unfold parse_step. intros Hstep Hall name a kw.
  assert (Hadd : forall x, (forall n b k, x = Task n b k -> k = ∅) ->
                 Task name a kw ∈ parsed ++ [x] -> kw = ∅).
  { intros x Hx [Hin|Hin]%elem_of_app; [eapply Hall; exact Hin|].
    apply list_elem_of_singleton in Hin. symmetry in Hin. eapply Hx; exact Hin. }
  destruct (args !! i) as [arg|]; [|discriminate].
  destruct (String.eqb arg "-v");
    [injection Hstep as <- <- <-; apply Hadd; discriminate|].
  destruct (String.eqb arg "-h");
    [injection Hstep as <- <- <-; apply Hadd; discriminate|].
  destruct (String.eqb arg "-b");
    [injection Hstep as <- <- <-; apply Hadd; discriminate|].
  destruct (String.eqb arg "-o").
  - destruct (args !! (i + 1)); [|discriminate].
    destruct (Str.split "=" s) as [|n [|v [|]]]; try discriminate.
    injection Hstep as <- <- <-. apply Hadd. discriminate.
  - destruct (Re.match_ TASK_RE arg) as [mo|]; [|discriminate].
    destruct (Re.group mo "name"); [|discriminate].
    injection Hstep as <- <- <-. apply Hadd. now intros n b k [= _ _ <-].
Qed.

Lemma parse_loop_kwargs fuel : forall args i parsed result,
  parse_loop fuel args i parsed = Some (OK result) ->
  (forall name a kw, Task name a kw ∈ parsed -> kw = ∅) ->
  forall name a kw, Task name a kw ∈ result -> kw = ∅.
Proof.
  induction fuel as [|fuel IH]; intros args i parsed result H Hall;
    [discriminate|]. simpl in H.
  destruct (Nat.ltb i (length args)); [|now injection H as <-].
  destruct (parse_step args i parsed) as [[[args' i'] parsed']|e] eqn:E;
    [|discriminate].
  eapply IH; [exact H|]. eapply parse_step_kwargs; [exact E|exact Hall].
Qed.

(** While the tokens are flags, the loop reads them in order and adds the
    action of each. *)
Lemma parse_loop_flags toks : forall read parsed,
  Forall (fun t => is_Some (flag_action t)) toks ->
  parse_loop (S (length toks)) (read ++ toks) (length read) parsed
  = Some (OK (parsed ++ omap flag_action toks)).
Proof.
  induction toks as [|t toks IH]; intros read parsed Hall.
  - cbn [parse_loop]. rewrite app_nil_r, Nat.ltb_irrefl.
    now rewrite app_nil_r.
  - apply Forall_cons in Hall as [[act Ht] Hall].
    cbn [parse_loop].
    replace (Nat.ltb (length read) (length (read ++ t :: toks))) with true
      by (symmetry; apply Nat.ltb_lt; rewrite length_app; simpl; lia).
    assert (Hstep : parse_step (read ++ t :: toks) (length read) parsed
                    = OK (read ++ t :: toks, length read + 1, parsed ++ [act])).
    { unfold parse_step. rewrite list_lookup_middle by reflexivity.
      unfold flag_action in Ht.
      destruct (String.eqb t "-v"); [now injection Ht as <-|].
      destruct (String.eqb t "-h"); [now injection Ht as <-|].
      destruct (String.eqb t "-b"); [now injection Ht as <-|discriminate]. }
    rewrite Hstep. specialize (IH (read ++ [t]) (parsed ++ [act]) Hall).
    rewrite <- app_assoc, length_app in IH.
    change ([t] ++ toks) with (t :: toks) in IH.
    change (length [t]) with 1 in IH.
    change (length (t :: toks)) with (S (length toks)).
    rewrite IH. cbn [omap list_omap]. rewrite Ht, <- app_assoc. reflexivity.
Qed.

(** On a command line made of the flags [-v], [-h] and [-b] only, every
    token gives its action, in order. *)
Lemma parse_flags_only prog toks :
  Forall (fun t => is_Some (flag_action t)) toks ->
  parseArguments (prog :: toks) = OK (omap flag_action toks).
Proof.
  intros Hall. apply (parseArguments_loop _ (S (length toks))).
  apply (parse_loop_flags toks [prog] [] Hall).
Qed.

(** C1, evaluated where it fails.  The claim is that every flag anywhere in
    the token list yields its action, also after a task call with
    arguments.  In the code the task branch rebinds [args], so the loop goes
    on over the task's own arguments: the [-v] that follows [foo(1,2)] is
    never read, a [-v] that follows a bare task name is never read, and a
    [-v] written as the third argument of a task call is read as a flag. *)
Theorem parse_flag_after_task_dropped prog :
  parseArguments [prog; "foo(1,2)"; "-v"] = OK [Task "foo" ["1"; "2"] ∅] /\
  parseArguments [prog; "foo"; "-v"] = OK [Task "foo" [] ∅] /\
  parseArguments [prog; "f(a,b,-v)"]
  = OK [Task "f" ["a"; "b"; "-v"] ∅; Version].
Proof. repeat split; vm_compute; reflexivity. Qed.

(** C2, amended.  When the loop meets [-o] at any index, it raises if no
    token follows; it splits the next token on every [=] and raises unless
    that gives exactly two pieces, so a token with no [=] or with more than
    one raises; and for a name and a value that hold no [=] the token
    name=value gives [Option name value] and the index moves on by two.
    Alone on the command line, such a pair parses to that one option. *)
Theorem parse_option_token :
  (forall args i parsed, args !! i = Some "-o" ->
     (args !! (i + 1) = None -> parse_step args i parsed = Raise IndexError) /\
     (forall nv, args !! (i + 1) = Some nv -> Str.count "=" nv <> 1 ->
        parse_step args i parsed = Raise ValueError) /\
     (forall name value, args !! (i + 1) = Some (name +:+ "=" +:+ value) ->
        Str.count "=" name = 0 -> Str.count "=" value = 0 ->
        parse_step args i parsed
        = OK (args, i + 2, parsed ++ [Option name value]))) /\
  (forall prog, parseArguments [prog; "-o"] = Raise IndexError) /\
  (forall prog nv, Str.count "=" nv <> 1 ->
     parseArguments [prog; "-o"; nv] = Raise ValueError) /\
  (forall prog name value,
     Str.count "=" name = 0 -> Str.count "=" value = 0 ->
     parseArguments [prog; "-o"; name +:+ "=" +:+ value]
     = OK [Option name value]).
Proof.
  assert (Hstep : forall args i parsed, args !! i = Some "-o" ->
     (args !! (i + 1) = None -> parse_step args i parsed = Raise IndexError) /\
     (forall nv, args !! (i + 1) = Some nv -> Str.count "=" nv <> 1 ->
        parse_step args i parsed = Raise ValueError) /\
     (forall name value, args !! (i + 1) = Some (name +:+ "=" +:+ value) ->
        Str.count "=" name = 0 -> Str.count "=" value = 0 ->
        parse_step args i parsed
        = OK (args, i + 2, parsed ++ [Option name value]))).
  { intros args i parsed Hi. rewrite (parse_step_option _ _ _ Hi).
    split; [|split].
    - now intros ->.
    - intros nv -> Hc. pose proof (split_not_pair nv Hc) as Hp.
      destruct (Str.split "=" nv) as [|n [|v [|]]]; try reflexivity.
      discriminate.
    - intros name value -> Hn Hv. rewrite (split_name_value _ _ Hn Hv).
      now replace (i + 1 + 1) with (i + 2) by lia. }
  split; [exact Hstep|]. split; [|split].
  - intros prog. vm_compute. reflexivity.
  - intros prog nv Hc. apply (parseArguments_loop _ 1). simpl.
    destruct (Hstep [prog; "-o"; nv] 1 [] eq_refl) as (_ & H & _).
    now rewrite (H nv eq_refl Hc).
  - intros prog name value Hn Hv. apply (parseArguments_loop _ 2).
    cbn [parse_loop length Nat.ltb Nat.leb].
    destruct (Hstep [prog; "-o"; name +:+ "=" +:+ value] 1 [] eq_refl)
      as (_ & _ & H).
    now rewrite (H name value eq_refl Hn Hv).
Qed.

(** C2 as stated fails: the value is not split off at the first [=].  With
    [a=b=c] after [-o] the split gives three pieces and the unpacking
    raises; no [Option "a" "b=c"] is produced. *)
Lemma parse_option_second_equals :
  parseArguments ["pie"; "-o"; "a=b=c"] = Raise ValueError /\
  parseArguments ["pie"; "-o"; "a=b=c"] <> OK [Option "a" "b=c"].
Proof. split; [vm_compute; reflexivity|vm_compute; discriminate]. Qed.

(** C6, evaluated where it fails.  The claim is that a token which is not a
    flag and is not a name optionally followed by parenthesized arguments is
    refused.  [TASK_RE] is matched at the start of the token only, so a
    token with an unclosed or stray parenthesis is accepted as the task
    named by what comes before the parenthesis, without arguments. *)
Theorem parse_unbalanced_parenthesis_accepted prog :
  parseArguments [prog; "foo(1"] = OK [Task "foo" [] ∅] /\
  parseArguments [prog; "foo)bar"] = OK [Task "foo" [] ∅].
Proof. split; vm_compute; reflexivity. Qed.

(** What is refused: the empty token and a token that starts with a
    parenthesis, and the error carries the token. *)
Lemma parse_unknown_task_format prog arg :
  match arg with EmptyString => True | String a _ => not_paren a = false end ->
  parseArguments [prog; arg]
  = Raise (Exception ("Unknown task format: " +:+ arg)).
Proof.
  intros H. apply (parseArguments_loop _ 1).
  cbn [parse_loop length Nat.ltb Nat.leb]. unfold parse_step.
  cbn [lookup list_lookup].
  apply TASK_RE_match_None in H as Hm. rewrite Hm.
  destruct arg as [|a s]; [reflexivity|].
  assert (Hne : forall f, String.eqb (String a s) (String "-" f) = false).
  { intros f. apply String.eqb_neq. intros [= -> _]. discriminate. }
  now rewrite !Hne.
Qed.

(** C7.  After any program name, [foo()] parses to the task [foo] with no
    positional argument, [foo(1,2)] to the task [foo] with the arguments
    [1] and [2], and bare [foo] to the task [foo] with no argument; and in
    whatever [parseArguments] returns, every task has the empty keyword
    map. *)
Theorem parse_single_task :
  (forall prog,
     parseArguments [prog; "foo()"] = OK [Task "foo" [] ∅] /\
     parseArguments [prog; "foo(1,2)"] = OK [Task "foo" ["1"; "2"] ∅] /\
     parseArguments [prog; "foo"] = OK [Task "foo" [] ∅]) /\
  (forall args parsed name a kw,
     parseArguments args = OK parsed -> Task name a kw ∈ parsed -> kw = ∅).
Proof.
  split.
  - intros prog. repeat split; vm_compute; reflexivity.
  - intros args parsed name a kw Hp.
    destruct (parseArguments_terminates args) as [fuel Hf]. rewrite Hp in Hf.
    eapply parse_loop_kwargs; [exact Hf|].
    intros n b k Hin. now apply elem_of_nil in Hin.
Qed.

(** ** The venv context and the shell *)

Lemma cmd_trace c (w : World TaskFn) :
  cmd c w = Ret tt (mkWorld (options w) (context w) (tasks w)
                            (trace w ++ [Shell c])).
Proof. reflexivity. Qed.

(** What a [with venv(p):] block does is what its body does, except that an
    exception of the body is replaced. *)
Lemma with_venv p (body : venv -> M unit) (w : World TaskFn) :
  with_ {| path := p |} body w =
  match body {| path := p |} w with
  | Ret _ w2 => Ret tt w2
  | Raised _ w2 => Raised (Exception "I dunno") w2
  end.
Proof.
  unfold with_. cbn. destruct (body {| path := p |} w); reflexivity.
Qed.

(** C3, evaluated where it fails.  The claim is that a command issued
    inside a [with venv(path):] block is prefixed with the activation of
    that environment.  [cmd] hands its argument to the shell as it is, and
    nothing in the block changes that: inside the block the shell gets the
    same string as outside. *)
Theorem cmd_in_venv_not_prefixed p c (w : World TaskFn) :
  with_ {| path := p |} (fun _ => cmd c) w = cmd c w /\
  cmd c w = Ret tt (mkWorld (options w) (context w) (tasks w)
                            (trace w ++ [Shell c])).
Proof. split; [rewrite with_venv|]; reflexivity. Qed.

(** C4, evaluated where it fails.  The claim is that entering a venv block
    pushes a frame that is present during the block and that leaving pops
    it.  [__enter__] and [__exit__] leave the world as it is: the block runs
    with [context] as it was before, of the same size, and no frame is
    there to pop. *)
Theorem venv_enter_pushes_nothing p (w : World TaskFn) :
  (exists w1, __enter__ {| path := p |} w = Ret {| path := p |} w1 /\
     context w1 = context w /\ size (context w1) = size (context w)) /\
  __exit__ {| path := p |} None w = Ret false w /\
  (forall e, __exit__ {| path := p |} (Some e) w
             = Raised (Exception "I dunno") w).
Proof.
  split; [exists w; repeat split|]. split; [reflexivity|]. intros e. reflexivity.
Qed.

(** C5.  When the body of a [with venv(p):] block raises, whatever the
    exception, the block raises [Exception('I dunno')] in its place, in the
    world the body left; when the body ends normally the block ends
    normally. *)
Theorem venv_exit_replaces_exception p (body : venv -> M unit)
    (w : World TaskFn) :
  (forall e w2, body {| path := p |} w = Raised e w2 ->
     with_ {| path := p |} body w = Raised (Exception "I dunno") w2) /\
  (forall x w2, body {| path := p |} w = Ret x w2 ->
     with_ {| path := p |} body w = Ret tt w2).
Proof.
  split; intros ? w2 H; rewrite with_venv, H; reflexivity.
Qed.


(** ** Running the actions *)

Lemma bind_unit (m : M unit) (w : World TaskFn) : (m ;; mret tt) w = m w.
Proof.
  unfold mbind, M_bind, mret, M_ret. destruct (m w) as [[] w'|e w']; reflexivity.
Qed.

Lemma for_app (l1 l2 : list Argument) (f : Argument -> M unit)
    (w : World TaskFn) :
  for_ (l1 ++ l2) f w =
  match for_ l1 f w with
  | Ret _ w1 => for_ l2 f w1
  | Raised e w1 => Raised e w1
  end.
Proof.
  revert w. induction l1 as [|x l1 IH]; intros w; [reflexivity|].
  cbn [app for_]. unfold mbind, M_bind.
  destruct (f x w) as [[] w'|e w']; [apply IH|reflexivity].
Qed.

(** The help text goes out whatever the world. *)
Lemma Help_execute_prints (w : World TaskFn) :
  exists lines, Help_execute w
  = Ret tt (mkWorld (options w) (context w) (tasks w) (trace w ++ lines)).
Proof.
  eexists. unfold Help_execute, print, emit, mbind, M_bind.
  cbn [options context tasks trace]. rewrite <- !app_assoc. reflexivity.
Qed.

(** C8, amended.  With no argument after the program name the token list
    parses to no action and [main] is the help display alone: [pie_tasks]
    is not imported.  With the single argument [-h] the list parses to the
    help action, and [main] imports [pie_tasks] first and displays the help
    only if the import succeeds, in the world the import left. *)
Theorem main_no_arguments prog (w : World TaskFn) :
  parseArguments [prog] = OK [] /\
  main [prog] w = Help_execute w /\
  parseArguments [prog; "-h"] = OK [Help] /\
  main [prog; "-h"] w =
  match import_pie_tasks w with
  | Ret _ w1 => Help_execute w1
  | Raised e w1 => Raised e w1
  end.
Proof.
  assert (H0 : parseArguments [prog] = OK []) by (vm_compute; reflexivity).
  assert (H1 : parseArguments [prog; "-h"] = OK [Help])
    by (vm_compute; reflexivity).
  split; [exact H0|]. split; [unfold main; now rewrite H0|].
  split; [exact H1|]. unfold main.
  rewrite H1. cbn [for_ execute]. unfold mbind at 1. unfold M_bind at 1.
  destruct (import_pie_tasks w) as [[] w1|e w1]; [|reflexivity].
  apply bind_unit.
Qed.

(** C9.  The token list [-o x=1 build(1,2)] parses to the option then the
    task.  Running the two sets [x] to [1] in [options] and then calls the
    function registered under [build] with the arguments [1] and [2] and no
    keyword argument, in the world where [x] is already set; if no function
    is registered under [build] it raises [KeyError], again with [x] set.
    The same holds of [main] on that command line, in the world the import
    left.  In any list of actions, when the actions before one have run and
    that one raises, the run of the whole list raises the same exception in
    the world that action left, whatever comes after it; and [main] raises
    that exception too. *)
Theorem actions_in_order_fail_fast :
  (forall prog, parseArguments [prog; "-o"; "x=1"; "build(1,2)"]
                = OK [Option "x" "1"; Task "build" ["1"; "2"] ∅]) /\
  (forall (w : World TaskFn) f, tasks w !! "build" = Some f ->
     for_ [Option "x" "1"; Task "build" ["1"; "2"] ∅] execute w
     = call f ["1"; "2"] ∅
         (mkWorld (<["x" := "1"]> (options w)) (context w) (tasks w) (trace w))) /\
  (forall w : World TaskFn, tasks w !! "build" = None ->
     for_ [Option "x" "1"; Task "build" ["1"; "2"] ∅] execute w
     = Raised (KeyError "build")
         (mkWorld (<["x" := "1"]> (options w)) (context w) (tasks w) (trace w))) /\
  (forall prog (w w0 : World TaskFn) f,
     import_pie_tasks w = Ret tt w0 -> tasks w0 !! "build" = Some f ->
     main [prog; "-o"; "x=1"; "build(1,2)"] w
     = call f ["1"; "2"] ∅
         (mkWorld (<["x" := "1"]> (options w0)) (context w0) (tasks w0)
                  (trace w0))) /\
  (forall pre a post (w w1 w2 : World TaskFn) e,
     for_ pre execute w = Ret tt w1 ->
     execute a w1 = Raised e w2 ->
     for_ (pre ++ a :: post) execute w = Raised e w2) /\
  (forall argv pre a post (w w0 w1 w2 : World TaskFn) e,
     parseArguments argv = OK (pre ++ a :: post) ->
     import_pie_tasks w = Ret tt w0 ->
     for_ pre execute w0 = Ret tt w1 ->
     execute a w1 = Raised e w2 ->
     main argv w = Raised e w2).
Proof.
  assert (Hfail : forall pre a post (w w1 w2 : World TaskFn) e,
     for_ pre execute w = Ret tt w1 ->
     execute a w1 = Raised e w2 ->
     for_ (pre ++ a :: post) execute w = Raised e w2).
  { intros pre a post w w1 w2 e Hpre Ha. rewrite for_app, Hpre.
    cbn [for_]. unfold mbind, M_bind. now rewrite Ha. }
  assert (Hparse : forall prog,
     parseArguments [prog; "-o"; "x=1"; "build(1,2)"]
     = OK [Option "x" "1"; Task "build" ["1"; "2"] ∅])
    by (intros prog; vm_compute; reflexivity).
  assert (Hrun : forall w : World TaskFn,
     for_ [Option "x" "1"; Task "build" ["1"; "2"] ∅] execute w
     = match tasks w !! "build" with
       | Some f => call f ["1"; "2"] ∅
           (mkWorld (<["x" := "1"]> (options w)) (context w) (tasks w) (trace w))
       | None => Raised (KeyError "build")
           (mkWorld (<["x" := "1"]> (options w)) (context w) (tasks w) (trace w))
       end).
  { intros w. cbn [for_ execute]. unfold mbind at 1. unfold M_bind at 1.
    change (Option_execute "x" "1" w)
      with (Ret (W:=World TaskFn) tt
              (mkWorld (<["x" := "1"]> (options w)) (context w) (tasks w)
                       (trace w))).
    cbv iota beta. rewrite bind_unit. unfold Task_execute. cbn [tasks].
    reflexivity. }
  split; [exact Hparse|].
  split; [intros w f Hf; now rewrite Hrun, Hf|].
  split; [intros w Hf; now rewrite Hrun, Hf|].
  split; [|split; [exact Hfail|]].
  - intros prog w w0 f Hi Hf. unfold main. rewrite Hparse.
    unfold mbind at 1. unfold M_bind at 1. rewrite Hi.
    now rewrite Hrun, Hf.
  - intros argv pre a post w w0 w1 w2 e Hp Hi Hpre Ha. unfold main.
    rewrite Hp. destruct (pre ++ a :: post) as [|x l] eqn:E.
    + now destruct pre.
    + unfold mbind, M_bind. rewrite Hi, <- E. eapply Hfail; eassumption.
Qed.

(** * Further properties *)

(** ** Strings *)

Lemma length_append p s :
  String.length (p +:+ s) = String.length p + String.length s.
Proof. induction p as [|c p IH]; simpl; [reflexivity|now rewrite IH]. Qed.

Lemma append_empty s : s +:+ "" = s.
Proof.
  induction s as [|c s IH]; [reflexivity|].
  change (String c s +:+ "") with (String c (s +:+ "")). now rewrite IH.
Qed.

Lemma count_append sep a b :
  Str.count sep (a +:+ b) = Str.count sep a + Str.count sep b.
Proof. induction a as [|c a IH]; simpl; [reflexivity|]. rewrite IH. lia. Qed.

Lemma take_append p s :
  Str.take (String.length (p +:+ s) - String.length s) (p +:+ s) = p.
Proof.
  rewrite length_append.
  replace (String.length p + String.length s - String.length s)
    with (String.length p) by lia.
  induction p as [|c p IH]; simpl; [now destruct s|now rewrite IH].
Qed.

(** No piece of a split holds the separator. *)
Lemma split_pieces_count sep s :
  Forall (fun piece => Str.count sep piece = 0) (Str.split sep s).
Proof.
  induction s as [|a s IH]; simpl; [repeat constructor|].
  destruct (Ascii.eqb a sep) eqn:E; [constructor; [reflexivity|exact IH]|].
  destruct (Str.split sep s) as [|piece rest]; simpl.
  - repeat constructor. simpl. now rewrite E.
  - apply Forall_cons in IH as [H1 H2]. constructor; [|exact H2].
    simpl. now rewrite E.
Qed.

(** What holds of every character of a string holds of every character of
    its pieces. *)
Lemma split_pieces_all f sep s :
  all_chars f s = true ->
  Forall (fun piece => all_chars f piece = true) (Str.split sep s).
Proof.
  induction s as [|a s IH]; simpl; [repeat constructor|].
  intros [Ha Hs]%andb_prop. specialize (IH Hs).
  destruct (Ascii.eqb a sep); [constructor; [reflexivity|exact IH]|].
  destruct (Str.split sep s) as [|piece rest]; simpl.
  - repeat constructor. simpl. now rewrite Ha.
  - apply Forall_cons in IH as [H1 H2]. constructor; [|exact H2].
    simpl. now rewrite Ha, H1.
Qed.

Lemma split_not_blank sep s : s <> "" -> Str.split sep s <> [""].
Proof.
  intros Hs H. pose proof (split_weight sep s) as Hw. rewrite H in Hw.
  simpl in Hw. destruct s; [congruence|simpl in Hw; lia].
Qed.

(** ** The matcher, with what it has read *)

(** The continuation of a repetition is reached only behind a run of
    characters of the class that is long enough. *)
Lemma rep_inv_run (P : gmap string string -> Prop) cls min s : forall n k,
  (forall p s' c, s = p +:+ s' -> all_chars cls p = true ->
     min <= n + String.length p -> k s' = Some c -> P c) ->
  forall c, Re.rep cls min n s k = Some c -> P c.
Proof.
  induction s as [|a s IH]; intros n k Hk c; simpl.
  - destruct (Nat.leb_spec min n); [|discriminate].
    apply (Hk "" ""); [reflexivity|reflexivity|simpl; lia].
  - assert (Hstop :
      (if Nat.leb min n then k (String a s) else None) = Some c -> P c).
    { destruct (Nat.leb_spec min n); [|discriminate].
      apply (Hk "" (String a s)); [reflexivity|reflexivity|simpl; lia]. }
    destruct (cls a) eqn:Ea; [|exact Hstop].
    destruct (Re.rep cls min (S n) s k) as [c'|] eqn:E; [|exact Hstop].
    intros [= <-]. eapply IH; [|exact E].
    intros p s' c0 -> Hp Hn. apply (Hk (String a p) s');
      [reflexivity|simpl; now rewrite Ea, Hp|simpl; lia].
Qed.

(** The groups of a match of [TASK_RE]: [name] is there, not empty and
    without parentheses; [args], when it is there, is without newline. *)
Lemma TASK_RE_groups arg mo :
  Re.match_ TASK_RE arg = Some mo ->
  (exists name, Re.group mo "name" = Some name /\ name <> "" /\
                all_chars not_paren name = true) /\
  (forall a, Re.group mo "args" = Some a -> all_chars dot a = true).
Proof.
  unfold Re.match_, TASK_RE, Re.group. cbn [Re.run].
  revert mo. apply rep_inv_run. intros p s' c -> Hp Hn.
  assert (Hnp : p <> "") by (destruct p; [simpl in Hn; lia|discriminate]).
  match goal with |- match ?x with _ => _ end = _ -> _ =>
    destruct x as [c'|] eqn:E end; intros [= <-].
  - destruct s' as [|a s1]; [discriminate|].
    destruct (Ascii.eqb a "("); [|discriminate].
    revert c' E. apply rep_inv_run. intros q s2 c' -> Hq _.
    destruct s2 as [|b s3]; [discriminate|].
    destruct (Ascii.eqb b ")"); [|discriminate].
    intros [= <-]. cbn [Re.record]. split.
    + exists p. rewrite lookup_insert_ne by discriminate.
      rewrite lookup_insert_eq, take_append. auto.
    + intros a0. rewrite lookup_insert_eq, take_append. now intros [= <-].
  - cbn [Re.record]. split.
    + exists p. rewrite lookup_insert_eq, take_append. auto.
    + intros a0. rewrite lookup_insert_ne by discriminate.
      rewrite lookup_empty. discriminate.
Qed.

(** ** What the parser adds and what it raises *)

(** A pass of the loop that does not raise adds one action, of the shape
    [well_parsed] describes. *)
Lemma parse_step_adds args i parsed args' i' parsed' :
  parse_step args i parsed = OK (args', i', parsed') ->
  exists x, parsed' = parsed ++ [x] /\ well_parsed x.
Proof.
  unfold parse_step. destruct (args !! i) as [arg|]; [|discriminate].
  destruct (String.eqb arg "-v");
    [intros [= <- <- <-]; exists Version; now split|].
  destruct (String.eqb arg "-h");
    [intros [= <- <- <-]; exists Help; now split|].
  destruct (String.eqb arg "-b");
    [intros [= <- <- <-]; exists CreateBatchFile; now split|].
  destruct (String.eqb arg "-o").
  - destruct (args !! (i + 1)) as [nv|]; [|discriminate].
    pose proof (split_pieces_count "=" nv) as Hc.
    destruct (Str.split "=" nv) as [|name [|value [|]]]; try discriminate.
    intros [= <- <- <-]. exists (Option name value). split; [reflexivity|].
    apply Forall_cons in Hc as [H1 Hc]. apply Forall_cons in Hc as [H2 _].
    now split.
  - destruct (Re.match_ TASK_RE arg) as [mo|] eqn:Em; [|discriminate].
    destruct (TASK_RE_groups _ _ Em) as [(name & Hn & Hne & Hnp) Hargs].
    rewrite Hn. intros [= <- <- <-]. eexists. split; [reflexivity|].
    split; [exact Hne|]. split; [exact Hnp|].
    destruct (Re.group mo "args") as [a|] eqn:Ea;
      [|split; [discriminate|split; [constructor|reflexivity]]].
    destruct a as [|c a]; cbn [Str.truthy];
      [split; [discriminate|split; [constructor|reflexivity]]|].
    split; [now apply split_not_blank|]. split; [|reflexivity].
    pose proof (split_pieces_count "," (String c a)) as H1.
    pose proof (split_pieces_all dot "," (String c a) (Hargs _ eq_refl)) as H2.
    rewrite Forall_forall in H1, H2. apply Forall_forall. intros x Hx.
    split; [now apply H1|now apply H2].
Qed.

(** The loop returns what it started with, followed by well-shaped actions,
    at least one if it makes a pass. *)
Lemma parse_loop_adds fuel : forall args i parsed r,
  parse_loop fuel args i parsed = Some (OK r) ->
  exists more, r = parsed ++ more /\ Forall well_parsed more /\
               (i < length args -> more <> []).
Proof.
  induction fuel as [|fuel IH]; intros args i parsed r H; [discriminate|].
  simpl in H. destruct (Nat.ltb_spec i (length args)).
  - destruct (parse_step args i parsed) as [[[args' i'] parsed']|e] eqn:E;
      [|discriminate].
    destruct (parse_step_adds _ _ _ _ _ _ E) as (x & -> & Hx).
    destruct (IH _ _ _ _ H) as (more & -> & Hmore & _).
    exists (x :: more). rewrite <- app_assoc. split; [reflexivity|].
    split; [now constructor|discriminate].
  - injection H as <-. exists []. rewrite app_nil_r.
    split; [reflexivity|]. split; [constructor|lia].
Qed.

(** What a pass of the loop can raise. *)
Lemma parse_step_raises args i parsed e :
  i < length args -> parse_step args i parsed = Raise e ->
  (e = IndexError /\ args !! i = Some "-o" /\ length args = i + 1) \/
  (e = ValueError /\ args !! i = Some "-o" /\
     exists nv, args !! (i + 1) = Some nv /\ Str.count "=" nv <> 1) \/
  (exists t, e = Exception ("Unknown task format: " +:+ t) /\
     args !! i = Some t /\
     match t with EmptyString => True | String a _ => not_paren a = false end).
Proof.
  unfold parse_step. intros Hi.
  destruct (args !! i) as [arg|] eqn:Ei;
    [|apply lookup_ge_None in Ei; lia].
  destruct (String.eqb arg "-v"); [discriminate|].
  destruct (String.eqb arg "-h"); [discriminate|].
  destruct (String.eqb arg "-b"); [discriminate|].
  destruct (String.eqb_spec arg "-o") as [->|_].
  - destruct (args !! (i + 1)) as [nv|] eqn:En.
    + pose proof (split_length "=" nv) as Hl.
      destruct (Str.split "=" nv) as [|name [|value [|]]] eqn:Es;
        try discriminate; intros [= <-]; right; left;
        (split; [reflexivity|]); (split; [reflexivity|]);
        exists nv; (split; [reflexivity|]); simpl in Hl; lia.
    + intros [= <-]. left. split; [reflexivity|]. split; [reflexivity|].
      apply lookup_ge_None in En. lia.
  - destruct (Re.match_ TASK_RE arg) as [mo|] eqn:Em.
    + destruct (TASK_RE_name _ _ Em) as [name ->]. discriminate.
    + intros [= <-]. right. right. exists arg.
      split; [reflexivity|]. split; [reflexivity|].
      now apply TASK_RE_match_None.
Qed.

Lemma parse_loop_raises fuel : forall args i parsed e,
  parse_loop fuel args i parsed = Some (Raise e) ->
  e = IndexError \/ e = ValueError \/
  exists t, e = Exception ("Unknown task format: " +:+ t) /\
    match t with EmptyString => True | String a _ => not_paren a = false end.
Proof.
  induction fuel as [|fuel IH]; intros args i parsed e H; [discriminate|].
  simpl in H. destruct (Nat.ltb_spec i (length args)); [|discriminate].
  destruct (parse_step args i parsed) as [[[args' i'] parsed']|e'] eqn:E;
    [now apply IH in H|].
  injection H as ->.
  destruct (parse_step_raises _ _ _ _ H0 E)
    as [(-> & _)|[(-> & _)|(t & -> & _ & Ht)]]; eauto.
Qed.

(** [parseArguments] raises nothing but [IndexError], for a last token
    [-o]; [ValueError], for a token after [-o] that is not one name and one
    value; and [Exception] with the message Unknown task format and the
    token, for a token that is empty or starts with a parenthesis. *)
Theorem parseArguments_raises args e :
  parseArguments args = Raise e ->
  e = IndexError \/ e = ValueError \/
  exists t, e = Exception ("Unknown task format: " +:+ t) /\
    match t with EmptyString => True | String a _ => not_paren a = false end.
Proof.
  intros H. destruct (parseArguments_terminates args) as [fuel Hf].
  rewrite H in Hf. exact (parse_loop_raises _ _ _ _ _ Hf).
Qed.

Lemma parseArguments_empty_aux args :
  parseArguments args = OK [] <-> length args <= 1.
Proof.
  split.
  - intros H. destruct (parseArguments_terminates args) as [fuel Hf].
    rewrite H in Hf.
    destruct (parse_loop_adds _ _ _ _ _ Hf) as (more & Hm & _ & Hne).
    destruct (Nat.le_gt_cases (length args) 1) as [Hle|Hgt]; [exact Hle|].
    simpl in Hm. subst more. now destruct (Hne Hgt).
  - intros H. apply (parseArguments_loop _ 1). simpl.
    destruct (Nat.ltb_spec 1 (length args)); [lia|reflexivity].
Qed.

(** [parseArguments] returns the empty list exactly when no token follows
    the program name: as soon as there is one, it raises or returns at least
    one action. *)
Theorem parseArguments_empty args :
  parseArguments args = OK [] <-> length args <= 1.
Proof. exact (parseArguments_empty_aux args). Qed.

(** No option that [parseArguments] returns holds a [=] in its name or in
    its value. *)
Theorem parsed_option_shape args parsed name value :
  parseArguments args = OK parsed -> Option name value ∈ parsed ->
  Str.count "=" name = 0 /\ Str.count "=" value = 0.
Proof.
  intros H Hin. destruct (parseArguments_terminates args) as [fuel Hf].
  rewrite H in Hf. destruct (parse_loop_adds _ _ _ _ _ Hf) as (more & -> & Hw & _).
  rewrite Forall_forall in Hw. exact (Hw _ Hin).
Qed.

(** Every task that [parseArguments] returns has a name that is not empty
    and holds no parenthesis; its arguments hold no comma and no newline,
    and they are never the single empty string: empty parentheses give no
    argument. *)
Theorem parsed_task_shape args parsed name a kw :
  parseArguments args = OK parsed -> Task name a kw ∈ parsed ->
  name <> "" /\ all_chars not_paren name = true /\ a <> [""] /\
  Forall (fun x => Str.count "," x = 0 /\ all_chars dot x = true) a.
Proof.
  intros H Hin. destruct (parseArguments_terminates args) as [fuel Hf].
  rewrite H in Hf. destruct (parse_loop_adds _ _ _ _ _ Hf) as (more & -> & Hw & _).
  rewrite Forall_forall in Hw. destruct (Hw _ Hin) as (H1 & H2 & H3 & H4 & _).
  auto.
Qed.

(** The loop of [parseArguments] ends, whatever the tokens and although the
    task branch replaces the list it runs over: a number of passes within
    the weight of the tokens after the program name gives a result, and
    more passes give the same. *)
Theorem parse_loop_ends args :
  exists fuel, fuel <= S (weight args 1) /\
    forall fuel', fuel <= fuel' ->
      parse_loop fuel' args 1 [] = Some (parseArguments args).
Proof.
  exists (S (weight args 1)). split; [lia|]. intros fuel' Hle.
  destruct (parse_loop_enough (S (weight args 1)) args 1 []) as [r Hr]; [lia|].
  rewrite (parseArguments_loop _ _ _ Hr).
  exact (parse_loop_mono _ _ _ _ _ _ Hr Hle).
Qed.

(** ** Command lines without task calls *)

Lemma drop_cons_inv (args : list string) i t l :
  drop i args = t :: l -> args !! i = Some t /\ drop (S i) args = l.
Proof.
  intros H. assert (Hi : args !! i = Some t).
  { rewrite <- (Nat.add_0_r i), <- lookup_drop, H. reflexivity. }
  split; [exact Hi|]. rewrite (drop_S _ _ _ Hi) in H. now injection H.
Qed.

Lemma parse_step_flag args i parsed t a :
  args !! i = Some t -> flag_action t = Some a ->
  parse_step args i parsed = OK (args, i + 1, parsed ++ [a]).
Proof.
  unfold parse_step, flag_action. intros ->.
  destruct (String.eqb t "-v"); [now intros [= <-]|].
  destruct (String.eqb t "-h"); [now intros [= <-]|].
  destruct (String.eqb t "-b"); [now intros [= <-]|discriminate].
Qed.

(** Over a stretch of flags and options the loop does what
    [simple_actions] does, and goes on behind it. *)
Lemma parse_loop_simple n : forall toks, length toks <= n ->
  forall args i rest parsed acts fuel r,
  drop i args = toks ++ rest -> simple_actions toks = Some acts ->
  parse_loop fuel args (i + length toks) (parsed ++ acts) = Some r ->
  exists fuel', parse_loop fuel' args i parsed = Some r.
Proof.
  induction n as [|n IH]; intros toks Hn args i rest parsed acts fuel r Hd Hs H.
  - destruct toks; [|simpl in Hn; lia]. injection Hs as <-.
    rewrite Nat.add_0_r, app_nil_r in H. eauto.
  - destruct toks as [|t toks].
    { injection Hs as <-. rewrite Nat.add_0_r, app_nil_r in H. eauto. }
    apply drop_cons_inv in Hd as [Hi Hd]. simpl in Hn.
    assert (Hlt : Nat.ltb i (length args) = true)
      by (apply Nat.ltb_lt; eapply lookup_lt_Some; exact Hi).
    cbn [simple_actions] in Hs.
    destruct (flag_action t) as [a|] eqn:Ef.
    + destruct (simple_actions toks) as [acts0|] eqn:E0; [|discriminate].
      injection Hs as <-.
      destruct (IH toks ltac:(lia) args (S i) rest (parsed ++ [a]) acts0 fuel r
                  Hd E0) as [fuel' Hf].
      { rewrite <- app_assoc.
        replace (S i + length toks) with (i + length (t :: toks))
          by (simpl; lia). exact H. }
      exists (S fuel'). simpl. rewrite Hlt, (parse_step_flag _ _ _ _ _ Hi Ef).
      now replace (i + 1) with (S i) by lia.
    + destruct (String.eqb_spec t "-o") as [->|]; [|discriminate].
      destruct toks as [|nv toks]; [discriminate|].
      apply drop_cons_inv in Hd as [Hi1 Hd]. simpl in Hn.
      destruct (Str.split "=" nv) as [|name [|value [|]]] eqn:Es;
        try discriminate.
      destruct (simple_actions toks) as [acts0|] eqn:E0; [|discriminate].
      injection Hs as <-.
      destruct (IH toks ltac:(lia) args (S (S i)) rest
                  (parsed ++ [Option name value]) acts0 fuel r Hd E0)
        as [fuel' Hf].
      { rewrite <- app_assoc.
        replace (S (S i) + length toks) with (i + length ("-o" :: nv :: toks))
          by (simpl; lia). exact H. }
      exists (S fuel'). simpl. rewrite Hlt, (parse_step_option _ _ _ Hi).
      replace (i + 1) with (S i) by lia. rewrite Hi1, Es.
      now replace (S i + 1) with (S (S i)) by lia.
Qed.

Lemma parse_simple_aux prog toks acts :
  simple_actions toks = Some acts ->
  parseArguments (prog :: toks) = OK acts.
Proof.
  intros Hs.
  destruct (parse_loop_simple (length toks) toks (Nat.le_refl _)
              (prog :: toks) 1 [] [] acts 1 (OK acts)) as [fuel Hf].
  - simpl. now rewrite drop_0, app_nil_r.
  - exact Hs.
  - simpl. now rewrite Nat.ltb_irrefl.
  - exact (parseArguments_loop _ _ _ Hf).
Qed.

(** On a command line made of flags and of [-o] followed by one name and
    one value around a single [=], [parseArguments] returns the action of
    each flag and of each pair, in order. *)
Theorem parse_simple prog toks acts :
  simple_actions toks = Some acts ->
  parseArguments (prog :: toks) = OK acts.
Proof. exact (parse_simple_aux prog toks acts). Qed.

(** ** Task calls *)

Lemma rep_none cls min s : forall n k,
  (forall p s', s = p +:+ s' -> k s' = None) -> Re.rep cls min n s k = None.
Proof.
  induction s as [|a s IH]; intros n k Hk; simpl.
  - rewrite (Hk "" "" eq_refl). now destruct (Nat.leb min n).
  - rewrite (Hk "" (String a s) eq_refl).
    rewrite IH by (intros p s' ->; exact (Hk (String a p) s' eq_refl)).
    destruct (cls a); now destruct (Nat.leb min n).
Qed.

(** A run of the class that the next character ends is read whole, when
    what follows in the pattern matches behind it. *)
Lemma rep_run cls min p : forall n rest k g,
  all_chars cls p = true ->
  match rest with EmptyString => True | String c _ => cls c = false end ->
  min <= n + String.length p -> k rest = Some g ->
  Re.rep cls min n (p +:+ rest) k = Some g.
Proof.
  induction p as [|a p IH]; intros n rest k g Hp Hrest Hn Hk; simpl in *.
  - assert (Hleb : Nat.leb min n = true) by (apply Nat.leb_le; lia).
    destruct rest as [|c rest]; simpl; rewrite Hleb; [exact Hk|].
    now rewrite Hrest.
  - apply andb_prop in Hp as [-> Hp].
    now rewrite (IH (S n) rest k g Hp Hrest ltac:(lia) Hk).
Qed.

(** The [args] group goes up to the last closing parenthesis. *)
Lemma rep_dot_close a : forall n k tail g,
  all_chars dot a = true -> k (String ")" tail) = Some g ->
  (forall p s', tail = p +:+ s' -> k s' = None) ->
  Re.rep dot 0 n (a +:+ String ")" tail) k = Some g.
Proof.
  induction a as [|c a IH]; intros n k tail g Ha Hk Htail.
  - change ("" +:+ String ")" tail) with (String ")" tail).
    cbn [Re.rep Nat.leb]. change (dot ")") with true. cbv iota.
    now rewrite (rep_none dot 0 tail (S n) k Htail).
  - simpl in *. apply andb_prop in Ha as [-> Ha].
    now rewrite (IH (S n) k tail g Ha Hk Htail).
Qed.

Lemma count_suffix sep p s :
  Str.count sep (p +:+ s) = 0 -> Str.count sep s = 0.
Proof. rewrite count_append. lia. Qed.

Lemma TASK_RE_call_aux name a tail :
  name <> "" -> all_chars not_paren name = true ->
  all_chars dot a = true -> Str.count ")" tail = 0 ->
  Re.match_ TASK_RE (name +:+ "(" +:+ a +:+ ")" +:+ tail)
  = Some (<["args" := a]> (<["name" := name]> ∅)).
Proof.
  intros Hne Hname Ha Htail. unfold Re.match_, TASK_RE. cbn [Re.run].
  change ("(" +:+ a +:+ ")" +:+ tail) with (String "(" (a +:+ String ")" tail)).
  apply rep_run; [exact Hname|reflexivity|destruct name; [congruence|simpl; lia]|].
  cbn [Ascii.eqb Bool.eqb].
  erewrite rep_dot_close; [|exact Ha|cbn; reflexivity|].
  - cbn [Re.record]. now rewrite !take_append.
  - intros p s' ->. apply count_suffix in Htail.
    destruct s' as [|b s']; [reflexivity|]. simpl in Htail.
    destruct (Ascii.eqb b ")"); [lia|reflexivity].
Qed.

(** On a name followed by parenthesized text, and then by anything without
    a closing parenthesis, [TASK_RE] matches with the name in [name] and
    the text between the parentheses in [args]. *)
Theorem TASK_RE_call name a tail :
  name <> "" -> all_chars not_paren name = true ->
  all_chars dot a = true -> Str.count ")" tail = 0 ->
  Re.match_ TASK_RE (name +:+ "(" +:+ a +:+ ")" +:+ tail)
  = Some (<["args" := a]> (<["name" := name]> ∅)).
Proof. exact (TASK_RE_call_aux name a tail). Qed.

Lemma TASK_RE_bare_aux name rest :
  name <> "" -> all_chars not_paren name = true ->
  rest = "" \/ (exists r, rest = String ")" r) \/
  (exists r, rest = String "(" r /\ Str.count ")" r = 0) ->
  Re.match_ TASK_RE (name +:+ rest) = Some (<["name" := name]> ∅).
Proof.
  intros Hne Hname Hrest. unfold Re.match_, TASK_RE. cbn [Re.run].
  apply rep_run;
    [exact Hname| |destruct name; [congruence|simpl; lia]|].
  - destruct Hrest as [->|[[r ->]|(r & -> & _)]]; reflexivity.
  - cbn [Re.record]. rewrite take_append.
    destruct Hrest as [->|[[r ->]|(r & -> & Hr)]]; [reflexivity|reflexivity|].
    cbn [Ascii.eqb Bool.eqb]. rewrite rep_none; [reflexivity|].
    intros p s' ->. apply count_suffix in Hr.
    destruct s' as [|b s']; [reflexivity|]. simpl in Hr.
    destruct (Ascii.eqb b ")"); [lia|reflexivity].
Qed.

(** On a name alone, on a name followed by a closing parenthesis, and on a
    name followed by an opening parenthesis that nothing closes, [TASK_RE]
    matches with the name in [name] and without [args]. *)
Theorem TASK_RE_bare name rest :
  name <> "" -> all_chars not_paren name = true ->
  rest = "" \/ (exists r, rest = String ")" r) \/
  (exists r, rest = String "(" r /\ Str.count ")" r = 0) ->
  Re.match_ TASK_RE (name +:+ rest) = Some (<["name" := name]> ∅).
Proof. exact (TASK_RE_bare_aux name rest). Qed.

(** ** Task calls on the command line *)

(** A pass of the loop over a token that is not a flag and not [-o] looks
    at that token only. *)
Lemma parse_step_token args args' i parsed tok :
  args !! i = Some tok -> args' !! i = Some tok ->
  flag_action tok = None -> tok <> "-o" ->
  parse_step args i parsed = parse_step args' i parsed.
Proof.
  unfold parse_step, flag_action. intros -> -> Hf Ho.
  destruct (String.eqb tok "-v"); [discriminate|].
  destruct (String.eqb tok "-h"); [discriminate|].
  destruct (String.eqb tok "-b"); [discriminate|].
  destruct (String.eqb_spec tok "-o"); [contradiction|reflexivity].
Qed.

Lemma parse_step_task args i parsed tok mo name :
  args !! i = Some tok -> flag_action tok = None -> tok <> "-o" ->
  Re.match_ TASK_RE tok = Some mo -> Re.group mo "name" = Some name ->
  parse_step args i parsed =
  let args2 := match Re.group mo "args" with
               | Some a => call_args a
               | None => []
               end in
  OK (args2, i + 1, parsed ++ [Task name args2 ∅]).
Proof.
  unfold parse_step, flag_action, call_args. intros -> Hf Ho -> ->.
  destruct (String.eqb tok "-v"); [discriminate|].
  destruct (String.eqb tok "-h"); [discriminate|].
  destruct (String.eqb tok "-b"); [discriminate|].
  destruct (String.eqb_spec tok "-o"); [contradiction|reflexivity].
Qed.

(** Behind flags and options, the first token that is neither decides
    alone what the loop returns: the tokens after it are never read. *)
Theorem parse_after_task_ignored prog toks acts tok rest :
  simple_actions toks = Some acts ->
  flag_action tok = None -> tok <> "-o" ->
  parseArguments (prog :: toks ++ tok :: rest)
  = parseArguments (prog :: toks ++ [tok]).
Proof.
  intros Hs Hf Ho.
  set (A := prog :: toks ++ tok :: rest). set (B := prog :: toks ++ [tok]).
  assert (HA : A !! (1 + length toks) = Some tok)
    by (subst A; simpl; now rewrite list_lookup_middle).
  assert (HB : B !! (1 + length toks) = Some tok)
    by (subst B; simpl; now rewrite list_lookup_middle).
  destruct (parse_loop_enough (S (weight A (1 + length toks))) A
              (1 + length toks) acts) as [r Hr]; [lia|].
  assert (Hr' : parse_loop (S (weight A (1 + length toks))) B
                  (1 + length toks) acts = Some r).
  { rewrite <- Hr. cbn [parse_loop].
    rewrite (parse_step_token B A _ acts tok HB HA Hf Ho).
    apply lookup_lt_Some in HA as HlA. apply lookup_lt_Some in HB as HlB.
    apply Nat.ltb_lt in HlA, HlB. now rewrite HlA, HlB. }
  destruct (parse_loop_simple (length toks) toks (Nat.le_refl _) A 1
              (tok :: rest) [] acts (S (weight A (1 + length toks))) r)
    as [fA HfA];
    [subst A; simpl; now rewrite drop_0|exact Hs|exact Hr|].
  destruct (parse_loop_simple (length toks) toks (Nat.le_refl _) B 1
              [tok] [] acts (S (weight A (1 + length toks))) r)
    as [fB HfB];
    [subst B; simpl; now rewrite drop_0|exact Hs|exact Hr'|].
  now rewrite (parseArguments_loop _ _ _ HfA), (parseArguments_loop _ _ _ HfB).
Qed.

Lemma paren_not_flag tok :
  0 < Str.count "(" tok -> flag_action tok = None /\ tok <> "-o".
Proof.
  intros H. unfold flag_action.
  destruct (String.eqb_spec tok "-v") as [->|]; [simpl in H; lia|].
  destruct (String.eqb_spec tok "-h") as [->|]; [simpl in H; lia|].
  destruct (String.eqb_spec tok "-b") as [->|]; [simpl in H; lia|].
  split; [reflexivity|]. intros ->. simpl in H. lia.
Qed.

Lemma parse_task_call_aux prog toks acts name a tail rest :
  simple_actions toks = Some acts ->
  name <> "" -> all_chars not_paren name = true ->
  all_chars dot a = true -> Str.count ")" tail = 0 ->
  length (call_args a) <= length toks + 2 ->
  parseArguments (prog :: toks ++ (name +:+ "(" +:+ a +:+ ")" +:+ tail) :: rest)
  = OK (acts ++ [Task name (call_args a) ∅]).
Proof.
  intros Hs Hne Hname Ha Htail Hlen.
  set (tok := name +:+ "(" +:+ a +:+ ")" +:+ tail).
  set (A := prog :: toks ++ tok :: rest).
  assert (HA : A !! (1 + length toks) = Some tok)
    by (subst A; simpl; now rewrite list_lookup_middle).
  destruct (paren_not_flag tok) as [Hf Ho].
  { subst tok. rewrite count_append.
    change ("(" +:+ a +:+ ")" +:+ tail) with (String "(" (a +:+ ")" +:+ tail)).
    simpl. lia. }
  pose proof (parse_step_task A _ acts tok _ name HA Hf Ho
                (TASK_RE_call_aux name a tail Hne Hname Ha Htail)) as Hstep.
  unfold Re.group in Hstep. rewrite lookup_insert_eq in Hstep.
  rewrite lookup_insert_ne, lookup_insert_eq in Hstep by discriminate.
  specialize (Hstep eq_refl). cbv zeta in Hstep.
  destruct (parse_loop_simple (length toks) toks (Nat.le_refl _) A 1
              (tok :: rest) [] acts 2
              (OK (acts ++ [Task name (call_args a) ∅]))) as [f Hf'];
    [subst A; simpl; now rewrite drop_0|exact Hs| |].
  - cbn [parse_loop app]. apply lookup_lt_Some in HA as Hl.
    apply Nat.ltb_lt in Hl. rewrite Hl, Hstep.
    destruct (Nat.ltb_spec (1 + length toks + 1) (length (call_args a)));
      [lia|reflexivity].
  - exact (parseArguments_loop _ _ _ Hf').
Qed.

(** A well-formed task call after flags and options, with no more
    arguments than its index on the command line plus one, is parsed to the
    actions of the flags and options and then the task with its arguments
    split at the commas; with empty parentheses the task has no argument. *)
Theorem parse_task_call prog toks acts name a tail rest :
  simple_actions toks = Some acts ->
  name <> "" -> all_chars not_paren name = true ->
  all_chars dot a = true -> Str.count ")" tail = 0 ->
  length (call_args a) <= length toks + 2 ->
  parseArguments (prog :: toks ++ (name +:+ "(" +:+ a +:+ ")" +:+ tail) :: rest)
  = OK (acts ++ [Task name (call_args a) ∅]).
Proof. exact (parse_task_call_aux prog toks acts name a tail rest). Qed.

(** A bare task name after flags and options is parsed to their actions
    and then the task without arguments, whatever follows it. *)
Theorem parse_task_name prog toks acts name rest :
  simple_actions toks = Some acts ->
  name <> "" -> all_chars not_paren name = true ->
  flag_action name = None -> name <> "-o" ->
  parseArguments (prog :: toks ++ name :: rest)
  = OK (acts ++ [Task name [] ∅]).
Proof.
  intros Hs Hne Hname Hf Ho.
  set (A := prog :: toks ++ name :: rest).
  assert (HA : A !! (1 + length toks) = Some name)
    by (subst A; simpl; now rewrite list_lookup_middle).
  assert (Hm : Re.match_ TASK_RE name = Some (<["name" := name]> ∅)).
  { pose proof (TASK_RE_bare_aux name "" Hne Hname (or_introl eq_refl)) as H.
    now rewrite append_empty in H. }
  pose proof (parse_step_task A _ acts name _ name HA Hf Ho Hm) as Hstep.
  unfold Re.group in Hstep. rewrite lookup_insert_eq in Hstep.
  rewrite lookup_insert_ne, lookup_empty in Hstep by discriminate.
  specialize (Hstep eq_refl). cbv zeta in Hstep.
  destruct (parse_loop_simple (length toks) toks (Nat.le_refl _) A 1
              (name :: rest) [] acts 2 (OK (acts ++ [Task name [] ∅])))
    as [f Hf'];
    [subst A; simpl; now rewrite drop_0|exact Hs| |].
  - cbn [parse_loop app]. apply lookup_lt_Some in HA as Hl.
    apply Nat.ltb_lt in Hl. now rewrite Hl, Hstep.
  - exact (parseArguments_loop _ _ _ Hf').
Qed.

Lemma all_chars_append f a b :
  all_chars f (a +:+ b) = all_chars f a && all_chars f b.
Proof.
  induction a as [|c a IH]; [reflexivity|].
  change (String c a +:+ b) with (String c (a +:+ b)). simpl.
  now rewrite IH, andb_assoc.
Qed.

(** A task call in first place with three arguments of which the last is a
    flag: the loop goes on over the arguments of the call, from the index
    after the call, and so reads the third argument again, as a flag. *)
Theorem parse_third_argument_flag prog name a1 a2 t act rest :
  name <> "" -> all_chars not_paren name = true ->
  all_chars dot a1 = true -> Str.count "," a1 = 0 ->
  all_chars dot a2 = true -> Str.count "," a2 = 0 ->
  flag_action t = Some act ->
  parseArguments
    (prog :: (name +:+ "(" +:+ a1 +:+ "," +:+ a2 +:+ "," +:+ t +:+ ")") :: rest)
  = OK [Task name [a1; a2; t] ∅; act].
Proof.
  intros Hne Hname H1 C1 H2 C2 Ht.
  assert (Htdot : all_chars dot t = true /\ Str.count "," t = 0).
  { unfold flag_action in Ht.
    destruct (String.eqb_spec t "-v") as [->|]; [now split|].
    destruct (String.eqb_spec t "-h") as [->|]; [now split|].
    destruct (String.eqb_spec t "-b") as [->|]; [now split|discriminate]. }
  destruct Htdot as [H3 C3].
  set (a := a1 +:+ "," +:+ a2 +:+ "," +:+ t).
  assert (Ha : all_chars dot a = true).
  { subst a. rewrite all_chars_append, H1.
    change ("," +:+ a2 +:+ "," +:+ t) with (String "," (a2 +:+ "," +:+ t)).
    cbn [all_chars andb]. change (dot ",") with true. cbn [andb].
    rewrite all_chars_append, H2.
    change ("," +:+ t) with (String "," t). cbn [all_chars andb].
    change (dot ",") with true. cbn [andb]. exact H3. }
  assert (Hargs : call_args a = [a1; a2; t]).
  { unfold call_args. assert (Hsplit : Str.split "," a = [a1; a2; t]).
    { subst a.
      change ("," +:+ a2 +:+ "," +:+ t) with (String "," (a2 +:+ "," +:+ t)).
      rewrite (split_append _ _ _ C1).
      change ("," +:+ t) with (String "," t).
      rewrite (split_append _ _ _ C2). now rewrite (split_none _ _ C3). }
    rewrite Hsplit. destruct a; [discriminate Hsplit|reflexivity]. }
  set (tok := name +:+ "(" +:+ a +:+ ")" +:+ "").
  assert (Htok : name +:+ "(" +:+ a1 +:+ "," +:+ a2 +:+ "," +:+ t +:+ ")" = tok).
  { subst tok a. clear. f_equal.
    change ("(" +:+ a1 +:+ "," +:+ a2 +:+ "," +:+ t +:+ ")")
      with (String "(" (a1 +:+ "," +:+ a2 +:+ "," +:+ t +:+ ")")).
    change ("(" +:+ (a1 +:+ "," +:+ a2 +:+ "," +:+ t) +:+ ")" +:+ "")
      with (String "(" ((a1 +:+ "," +:+ a2 +:+ "," +:+ t) +:+ ")")).
    f_equal. induction a1 as [|c a1 IH].
    - change (String "," (a2 +:+ "," +:+ t +:+ ")")
              = String "," (a2 +:+ "," +:+ t) +:+ ")").
      change (String "," (a2 +:+ "," +:+ t) +:+ ")")
        with (String "," ((a2 +:+ "," +:+ t) +:+ ")")).
      f_equal. induction a2 as [|d a2 IH2]; [reflexivity|].
      change (String d (a2 +:+ "," +:+ t +:+ ")")
              = String d ((a2 +:+ "," +:+ t) +:+ ")")). now rewrite IH2.
    - change (String c (a1 +:+ "," +:+ a2 +:+ "," +:+ t +:+ ")")
              = String c ((a1 +:+ "," +:+ a2 +:+ "," +:+ t) +:+ ")")).
      now rewrite IH. }
  rewrite Htok. set (A := prog :: tok :: rest).
  destruct (paren_not_flag tok) as [Hf Ho].
  { subst tok. rewrite count_append.
    change ("(" +:+ a +:+ ")" +:+ "") with (String "(" (a +:+ ")" +:+ "")).
    simpl. lia. }
  pose proof (parse_step_task A 1 [] tok _ name eq_refl Hf Ho
                (TASK_RE_call_aux name a "" Hne Hname Ha eq_refl)) as Hstep.
  unfold Re.group in Hstep. rewrite lookup_insert_eq in Hstep.
  rewrite lookup_insert_ne, lookup_insert_eq in Hstep by discriminate.
  specialize (Hstep eq_refl). cbv zeta in Hstep. rewrite Hargs in Hstep.
  apply (parseArguments_loop _ 3). cbn [parse_loop]. subst A.
  cbn [length Nat.ltb Nat.leb]. rewrite Hstep. cbn [length Nat.ltb Nat.leb Nat.add].
  now rewrite (parse_step_flag [a1; a2; t] 2 _ t act eq_refl Ht).
Qed.

(** ** Options *)

Lemma setattr_ok d name value :
  guarded name = false -> setattr d name value = OK (<[name := value]> d).
Proof.
  unfold guarded, setattr. intros H.
  destruct (String.eqb name "__class__"); [discriminate|].
  destruct (String.eqb name "__dict__"); [discriminate|].
  destruct (String.eqb name "__weakref__"); [discriminate|reflexivity].
Qed.

(** Executing an option under a name that [setattr] accepts stores the
    value under the name: reading the name gives the value back, every
    other option is as before, and so are the registry, the context and the
    trace.  Under one of the three other names it raises and changes
    nothing. *)
Theorem option_set_get name value (w : World TaskFn) :
  (guarded name = false ->
     exists w', Option_execute name value w = Ret tt w' /\
       options w' !! name = Some value /\
       (forall n, n <> name -> options w' !! n = options w !! n) /\
       tasks w' = tasks w /\ context w' = context w /\ trace w' = trace w) /\
  (guarded name = true ->
     exists e, Option_execute name value w = Raised e w).
Proof.
  unfold Option_execute. split; intros H.
  - rewrite (setattr_ok _ _ _ H). eexists. split; [reflexivity|].
    cbn [options tasks context trace]. rewrite lookup_insert_eq.
    repeat split. intros n Hn. now rewrite lookup_insert_ne.
  - unfold guarded in H. unfold setattr.
    destruct (String.eqb name "__class__"); [eauto|].
    destruct (String.eqb name "__dict__"); [eauto|].
    destruct (String.eqb name "__weakref__"); [eauto|discriminate].
Qed.

(** The last write wins: setting a name twice leaves what setting it to the
    second value alone leaves. *)
Theorem option_last_write_wins name v1 v2 (w : World TaskFn) :
  for_ [Option name v1; Option name v2] execute w
  = for_ [Option name v2] execute w.
Proof.
  cbn [for_ execute]. unfold mbind, M_bind, Option_execute.
  destruct (guarded name) eqn:G.
  - unfold guarded in G. unfold setattr.
    destruct (String.eqb name "__class__"); [reflexivity|].
    destruct (String.eqb name "__dict__"); [reflexivity|].
    destruct (String.eqb name "__weakref__"); [reflexivity|discriminate].
  - repeat (rewrite (setattr_ok _ _ _ G); cbn [options context tasks trace]).
    now rewrite insert_insert_eq.
Qed.

(** ** The task registry *)

(** Registering a task function changes the registry only, at the name of
    the function: a task action of that name then calls the function with
    the arguments of the action, the wrapper the decorator returns does what
    the function does, and a task action of any other name finds what was
    there before. *)
Theorem task_registered_runs parameters taskFn (w : World TaskFn) :
  exists wrap w1,
    task parameters taskFn w = Ret wrap w1 /\
    (forall args kwargs,
       Task_execute (__name__ taskFn) args kwargs w1 = call taskFn args kwargs w1 /\
       wrap args kwargs = call taskFn args kwargs) /\
    (forall name, name <> __name__ taskFn -> tasks w1 !! name = tasks w !! name) /\
    options w1 = options w /\ context w1 = context w /\ trace w1 = trace w.
Proof.
  eexists. eexists. split; [reflexivity|]. cbn [tasks options context trace].
  split; [|split; [|auto]].
  - intros args kwargs. unfold Task_execute. cbn [tasks].
    now rewrite lookup_insert_eq.
  - intros name Hn. now rewrite lookup_insert_ne.
Qed.

(** Of two functions registered under one name the second is the one a
    task action calls. *)
Theorem task_registered_last f g (w w1 w2 : World TaskFn) wf wg args kwargs :
  __name__ g = __name__ f ->
  task [] f w = Ret wf w1 -> task [] g w1 = Ret wg w2 ->
  Task_execute (__name__ f) args kwargs w2 = call g args kwargs w2.
Proof.
  intros Hn [= _ <-] [= _ <-]. unfold Task_execute. cbn [tasks].
  now rewrite <- Hn, lookup_insert_eq.
Qed.

(** ** Nested venv blocks *)


(** ** What actions leave alone *)

Lemma emit_ends ev (w w' : World TaskFn) :
  ends_in (emit ev w) w' ->
  options w' = options w /\ tasks w' = tasks w /\ context w' = context w /\
  trace w' = trace w ++ [ev].
Proof. unfold emit, ends_in. now intros <-. Qed.

Lemma Help_execute_ends (w : World TaskFn) :
  exists w', Help_execute w = Ret tt w' /\
    options w' = options w /\ tasks w' = tasks w /\ context w' = context w /\
    exists evs, trace w' = trace w ++ evs.
Proof.
  destruct (Help_execute_prints w) as [lines ->]. eexists.
  split; [reflexivity|]. cbn [options tasks context trace]. eauto.
Qed.

Lemma execute_frame_aux a (w w' : World TaskFn) :
  (forall name args kwargs, a <> Task name args kwargs) ->
  ends_in (execute a w) w' ->
  tasks w' = tasks w /\ context w' = context w /\
  dom (options w) ⊆ dom (options w') /\
  (exists evs, trace w' = trace w ++ evs) /\
  ((forall name value, a <> Option name value) -> options w' = options w) /\
  (a = Version \/ a = Help -> execute a w = Ret tt w').
Proof.
  intros Hnt.
  assert (Hsame : exists evs, trace w = trace w ++ evs)
    by (exists []; now rewrite app_nil_r).
  destruct a as [| | |name value|name args kwargs];
    [| | | |now destruct (Hnt name args kwargs)]; cbn [execute].
  - unfold Version_execute, print. intros He.
    destruct (emit_ends _ _ _ He) as (Ho & Ht & Hc & Htr). rewrite Ho.
    split; [exact Ht|]. split; [exact Hc|]. split; [reflexivity|].
    split; [eauto|]. split; [reflexivity|]. intros _.
    cbv beta iota delta [emit ends_in] in He. unfold emit. f_equal. exact He.
  - unfold CreateBatchFile_execute, write_file.
    assert (H : forall path text,
      ends_in ((if writable path then emit (WriteFile path text)
                else raise IOError) w) w' ->
      options w' = options w /\ tasks w' = tasks w /\ context w' = context w /\
      exists evs, trace w' = trace w ++ evs).
    { intros path text. destruct (writable path).
      - intros (? & ? & ? & ?)%emit_ends. eauto 6.
      - unfold raise, ends_in. intros <-. auto. }
    intros He. assert (H' : options w' = options w /\ tasks w' = tasks w /\
      context w' = context w /\ exists evs, trace w' = trace w ++ evs)
      by (destruct WINDOWS; eapply H; exact He).
    destruct H' as (Ho & Ht & Hc & Hev). rewrite Ho.
    split; [exact Ht|]. split; [exact Hc|]. split; [reflexivity|].
    split; [exact Hev|]. split; [reflexivity|]. intros [|]; discriminate.
  - destruct (Help_execute_ends w) as (w1 & Hw1 & Ho & Ht & Hc & Hev).
    rewrite Hw1. unfold ends_in. intros <-. rewrite Ho.
    split; [exact Ht|]. split; [exact Hc|]. split; [reflexivity|].
    split; [exact Hev|]. split; reflexivity.
  - unfold Option_execute.
    destruct (setattr (options w) name value) as [d|e] eqn:E.
    + unfold ends_in. intros <-. cbn [options tasks context trace].
      assert (Hd : d = <[name := value]> (options w)).
      { unfold setattr in E.
        destruct (String.eqb name "__class__"); [discriminate|].
        destruct (String.eqb name "__dict__"); [discriminate|].
        destruct (String.eqb name "__weakref__"); [discriminate|].
        now injection E. }
      rewrite Hd. split; [reflexivity|]. split; [reflexivity|].
      split; [rewrite dom_insert_L; apply union_subseteq_r|].
      split; [exact Hsame|]. split; [|intros [|]; discriminate].
      intros H. now destruct (H name value).
    + unfold ends_in. intros <-.
      split; [reflexivity|]. split; [reflexivity|]. split; [reflexivity|].
      split; [exact Hsame|]. split; [reflexivity|]. intros [|]; discriminate.
Qed.

(** An action other than a task leaves the registry and the context as
    they are, removes no option, and only adds to the trace, whether it
    returns or raises; only an option action changes the options, and the
    version and the help never raise. *)
Theorem execute_frame a (w w' : World TaskFn) :
  (forall name args kwargs, a <> Task name args kwargs) ->
  ends_in (execute a w) w' ->
  tasks w' = tasks w /\ context w' = context w /\
  dom (options w) ⊆ dom (options w') /\
  (exists evs, trace w' = trace w ++ evs) /\
  ((forall name value, a <> Option name value) -> options w' = options w) /\
  (a = Version \/ a = Help -> execute a w = Ret tt w').
Proof. exact (execute_frame_aux a w w'). Qed.

(** ** The entry point, case by case *)

(** [main] on a command line that does not parse raises the error of the
    parser and does nothing else; with no token after the program name it
    shows the help and imports nothing; otherwise it imports [pie_tasks]
    and, if that succeeds, runs the actions in the world the import left. *)
Theorem main_cases argv (w : World TaskFn) :
  (forall e, parseArguments argv = Raise e -> main argv w = Raised e w) /\
  (length argv <= 1 -> main argv w = Help_execute w) /\
  (forall acts, 1 < length argv -> parseArguments argv = OK acts ->
     main argv w =
     match import_pie_tasks w with
     | Ret _ w1 => for_ acts execute w1
     | Raised e w1 => Raised e w1
     end).
Proof.
  unfold main. split; [|split].
  - now intros e ->.
  - intros H. apply parseArguments_empty_aux in H. now rewrite H.
  - intros acts Hlen Hp. rewrite Hp. destruct acts as [|a acts].
    + apply parseArguments_empty_aux in Hp. lia.
    + reflexivity.
Qed.

(** From the command line to the store: [-o] with a name and a value that
    hold no [=], the name being one that [setattr] accepts, ends with the
    value stored under the name in the world that the import left. *)
Theorem main_sets_option prog name value (w w1 : World TaskFn) :
  Str.count "=" name = 0 -> Str.count "=" value = 0 ->
  guarded name = false ->
  import_pie_tasks w = Ret tt w1 ->
  main [prog; "-o"; name +:+ "=" +:+ value] w
  = Ret tt (mkWorld (<[name := value]> (options w1)) (context w1)
                    (tasks w1) (trace w1)).
Proof.
  intros Hn Hv Hg Hi.
  assert (Hp : parseArguments [prog; "-o"; name +:+ "=" +:+ value]
               = OK [Option name value]).
  { apply parse_simple_aux. cbn [simple_actions flag_action String.eqb Ascii.eqb
                             Bool.eqb].
    now rewrite (split_name_value _ _ Hn Hv). }
  unfold main. rewrite Hp. unfold mbind, M_bind. rewrite Hi.
  cbn [for_ execute]. unfold mbind, M_bind, Option_execute.
  now rewrite (setattr_ok _ _ _ Hg).
Qed.

(** From the command line to the registry: a well-formed task call alone
    on the command line, with at most two arguments, calls the function
    that the import left registered under the name, with the arguments
    split at the commas and no keyword argument; if no function is
    registered under the name it raises [KeyError] with the name. *)
Theorem main_runs_task prog name a (w w1 : World TaskFn) :
  name <> "" -> all_chars not_paren name = true ->
  all_chars dot a = true -> length (call_args a) <= 2 ->
  import_pie_tasks w = Ret tt w1 ->
  main [prog; name +:+ "(" +:+ a +:+ ")"] w =
  match tasks w1 !! name with
  | Some f => call f (call_args a) ∅ w1
  | None => Raised (KeyError name) w1
  end.
Proof.
  intros Hne Hname Ha Hlen Hi.
  pose proof (parse_task_call_aux prog [] [] name a "" [] eq_refl Hne Hname Ha
                eq_refl Hlen) as Hp.
  cbn [app] in Hp.
  change (name +:+ "(" +:+ a +:+ ")" +:+ "")
    with (name +:+ "(" +:+ a +:+ ")") in Hp.
  unfold main. rewrite Hp. unfold mbind at 1. unfold M_bind at 1.
  rewrite Hi. cbn [for_ execute]. rewrite bind_unit. reflexivity.
Qed.

(** ** Errors behind flags and options *)

(** Behind flags and options that parse, a last [-o] raises [IndexError]; a
    token after [-o] that does not hold exactly one [=] raises
    [ValueError]; and a token that is empty or starts with a parenthesis
    raises [Exception] with the message Unknown task format and the token.
    What comes after on the command line makes no difference. *)
Theorem parse_error_behind_simple prog toks acts :
  simple_actions toks = Some acts ->
  parseArguments (prog :: toks ++ ["-o"]) = Raise IndexError /\
  (forall nv rest, Str.count "=" nv <> 1 ->
     parseArguments (prog :: toks ++ "-o" :: nv :: rest) = Raise ValueError) /\
  (forall tok rest,
     match tok with EmptyString => True | String a _ => not_paren a = false end ->
     parseArguments (prog :: toks ++ tok :: rest)
     = Raise (Exception ("Unknown task format: " +:+ tok))).
Proof.
  intros Hs.
  assert (Hat : forall tok rest r,
    (forall args i parsed, args !! i = Some tok ->
       args !! (i + 1) = (tok :: rest) !! 1 ->
       parse_step args i parsed = Raise r) ->
    parseArguments (prog :: toks ++ tok :: rest) = Raise r).
  { intros tok rest r Hstep. set (A := prog :: toks ++ tok :: rest).
    assert (HA : A !! (1 + length toks) = Some tok)
      by (subst A; simpl; now rewrite list_lookup_middle).
    assert (HA1 : A !! (1 + length toks + 1) = (tok :: rest) !! 1).
    { subst A.
      change (prog :: toks ++ tok :: rest) with ((prog :: toks) ++ tok :: rest).
      rewrite lookup_app_r by (simpl; lia).
      now replace (1 + length toks + 1 - length (prog :: toks)) with 1
        by (simpl; lia). }
    destruct (parse_loop_simple (length toks) toks (Nat.le_refl _) A 1
                (tok :: rest) [] acts 1 (Raise r)) as [f Hf];
      [subst A; simpl; now rewrite drop_0|exact Hs| |].
    - cbn [parse_loop app]. apply lookup_lt_Some in HA as Hl.
      apply Nat.ltb_lt in Hl. now rewrite Hl, (Hstep _ _ _ HA HA1).
    - exact (parseArguments_loop _ _ _ Hf). }
  split; [|split].
  - apply Hat. intros args i parsed Hi Hi1.
    now rewrite (parse_step_option _ _ _ Hi), Hi1.
  - intros nv rest Hc. apply Hat. intros args i parsed Hi Hi1.
    rewrite (parse_step_option _ _ _ Hi), Hi1. cbn [lookup list_lookup].
    pose proof (split_not_pair nv Hc) as Hp.
    destruct (Str.split "=" nv) as [|n [|v [|]]]; try reflexivity.
    discriminate.
  - intros tok rest Htok. apply Hat. intros args i parsed Hi _.
    unfold parse_step. rewrite Hi.
    apply TASK_RE_match_None in Htok as Hm. rewrite Hm.
    destruct tok as [|a t]; [reflexivity|].
    assert (Hne : forall f, String.eqb (String a t) (String "-" f) = false).
    { intros f. apply String.eqb_neq. intros [= -> _]. discriminate. }
    now rewrite !Hne.
Qed.

(** ** What a run of actions leaves alone *)

(** A run of actions none of which is a task leaves the registry and the
    context as they were, removes no option and only adds to the trace,
    whether it ends normally or stops at a failing action. *)
Theorem actions_frame acts : forall (w w' : World TaskFn),
  Forall (fun a => forall name args kwargs, a <> Task name args kwargs) acts ->
  ends_in (for_ acts execute w) w' ->
  tasks w' = tasks w /\ context w' = context w /\
  dom (options w) ⊆ dom (options w') /\
  exists evs, trace w' = trace w ++ evs.
Proof.
  induction acts as [|a acts IH]; intros w w' Hall He.
  - cbv beta iota delta [for_ mret M_ret ends_in] in He. subst w'.
    split; [reflexivity|]. split; [reflexivity|]. split; [reflexivity|].
    exists []. now rewrite app_nil_r.
  - apply Forall_cons in Hall as [Ha Hall]. cbn [for_] in He.
    unfold mbind, M_bind in He.
    destruct (execute a w) as [[] w1|e w1] eqn:E.
    + destruct (execute_frame_aux a w w1 Ha) as (Ht & Hc & Hd & [ev1 Hev] & _);
        [now rewrite E|].
      destruct (IH w1 w' Hall He) as (Ht' & Hc' & Hd' & [ev2 Hev']).
      split; [congruence|]. split; [congruence|].
      split; [etransitivity; eassumption|].
      exists (ev1 ++ ev2). now rewrite Hev', Hev, app_assoc.
    + destruct (execute_frame_aux a w w1 Ha) as (Ht & Hc & Hd & Hev & _);
        [now rewrite E|].
      cbv beta iota delta [ends_in] in He. subst w'. auto.
Qed.

End Pie.

(** * Checks on concrete input *)

Lemma parse_single_task_witness :
  parseArguments ["pie"; "-o"; "x=1"; "build(1,2)"]
  = OK [Option "x" "1"; Task "build" ["1"; "2"] ∅] /\
  (∅ : gmap string string) = ∅.
Proof.
  split; [vm_compute; reflexivity|].
  apply (proj2 parse_single_task ["pie"; "-o"; "x=1"; "build(1,2)"]
           [Option "x" "1"; Task "build" ["1"; "2"] ∅] "build" ["1"; "2"] ∅).
  - vm_compute. reflexivity.
  - apply list_elem_of_In. simpl. right. left. reflexivity.
Defined.

Lemma parse_option_token_witness :
  parse_step ["pie"; "-o"; "a=b"] 1 []
  = OK (["pie"; "-o"; "a=b"], 3, [Option "a" "b"]) /\
  parse_step ["pie"; "-o"; "ab"] 1 [] = Raise ValueError /\
  parse_step ["pie"; "-o"] 1 [] = Raise IndexError /\
  parseArguments ["pie"; "-o"; "ab"] = Raise ValueError /\
  parseArguments ["pie"; "-o"; "a=b"] = OK [Option "a" "b"].
Proof.
  destruct parse_option_token as (Hstep & _ & Hbad & Hgood).
  destruct (Hstep ["pie"; "-o"; "a=b"] 1 [] eq_refl) as (_ & _ & H1).
  destruct (Hstep ["pie"; "-o"; "ab"] 1 [] eq_refl) as (_ & H2 & _).
  destruct (Hstep ["pie"; "-o"] 1 [] eq_refl) as (H3 & _ & _).
  split; [apply (H1 "a" "b"); reflexivity|].
  split; [apply (H2 "ab"); [reflexivity|simpl; lia]|].
  split; [apply H3; reflexivity|].
  split; [apply (Hbad "pie" "ab"); simpl; lia|].
  apply (Hgood "pie" "a" "b"); reflexivity.
Defined.

Lemma venv_exit_replaces_exception_witness :
  with_ {| path := "venv/build" |} (fun _ => raise ValueError) world0
  = Raised (Exception "I dunno") world0 /\
  with_ {| path := "venv/build" |} (fun _ => cmd "python -m pip") world0
  = Ret tt (mkWorld ∅ ∅ ∅ [Shell "python -m pip"]).
Proof.
  destruct (venv_exit_replaces_exception "venv/build"
              (fun _ => raise ValueError) world0) as [H1 _].
  destruct (venv_exit_replaces_exception "venv/build"
              (fun _ => cmd "python -m pip") world0) as [_ H2].
  split; [apply (H1 ValueError world0)|apply (H2 tt)]; reflexivity.
Defined.

(** With [build] registered, [-o x=1 build(1,2)] sets the option and then
    runs the task, which prints its greeting and its two arguments; without
    it, the run raises [KeyError] after the option is set.  Where the
    shortcut file cannot be written, [-o x=1 -b -v] sets the option, fails on
    the shortcut and never prints the version. *)
Lemma actions_in_order_fail_fast_witness :
  for_ [Option "x" "1"; Task "build" ["1"; "2"] ∅]
       (execute echo_call false (fun _ => true)) build_world
  = Ret tt (mkWorld (<["x" := "1"]> ∅) ∅
              (<["build" := ("build", "building")]> ∅)
              [Print "building"; Print "1"; Print "2"]) /\
  for_ [Option "x" "1"; Task "build" ["1"; "2"] ∅]
       (execute echo_call false (fun _ => true)) echo_world
  = Raised (KeyError "build") (mkWorld (<["x" := "1"]> ∅) ∅ ∅ []) /\
  main echo_call build_module false (fun _ => true)
       ["pie"; "-o"; "x=1"; "build(1,2)"] echo_world
  = Ret tt (mkWorld (<["x" := "1"]> ∅) ∅
              (<["build" := ("build", "building")]> ∅)
              [Import "pie_tasks"; Print "building"; Print "1"; Print "2"]) /\
  for_ [Option "x" "1"; CreateBatchFile; Version]
       (execute no_call false (fun _ => false)) world0
  = Raised IOError (mkWorld {["x" := "1"]} ∅ ∅ []) /\
  main no_call empty_module false (fun _ => false)
       ["pie"; "-o"; "x=1"; "-b"; "-v"] world0
  = Raised IOError (mkWorld {["x" := "1"]} ∅ ∅ [Import "pie_tasks"]).
Proof.
  destruct (actions_in_order_fail_fast echo_call build_module false
              (fun _ => true)) as (_ & Hcall & Hmiss & Hrun & _ & _).
  destruct (actions_in_order_fail_fast no_call empty_module false
              (fun _ => false)) as (_ & _ & _ & _ & Hfor & Hmain).
  split; [|split; [|split; [|split]]].
  - etransitivity;
      [apply (Hcall build_world ("build", "building")); reflexivity|].
    vm_compute. reflexivity.
  - apply (Hmiss echo_world). reflexivity.
  - etransitivity;
      [apply (Hrun "pie" echo_world
                (mkWorld ∅ ∅ (<["build" := ("build", "building")]> ∅)
                         [Import "pie_tasks"]) ("build", "building"));
       reflexivity|].
    vm_compute. reflexivity.
  - apply (Hfor [Option "x" "1"] CreateBatchFile [Version] world0
             (mkWorld {["x" := "1"]} ∅ ∅ [])); reflexivity.
  - apply (Hmain _ [Option "x" "1"] CreateBatchFile [Version] world0
             (mkWorld ∅ ∅ ∅ [Import "pie_tasks"])
             (mkWorld {["x" := "1"]} ∅ ∅ [Import "pie_tasks"]));
      [vm_compute|..]; reflexivity.
Defined.

(** C8 as stated fails.  Where no [pie_tasks] module can be imported, the
    program without arguments prints the help and the program with [-h]
    raises before printing anything; and where the import succeeds and does
    nothing, the run with [-h] still differs by the import. *)
Lemma main_help_imports_tasks :
  main no_call missing_module false (fun _ => true) ["pie"] world0
  <> main no_call missing_module false (fun _ => true) ["pie"; "-h"] world0 /\
  main no_call empty_module false (fun _ => true) ["pie"] world0
  <> main no_call empty_module false (fun _ => true) ["pie"; "-h"] world0.
Proof. split; vm_compute; discriminate. Qed.

(** ** Further checks *)

Lemma parseArguments_raises_witness :
  Exception "Unknown task format: (x)" = IndexError \/
  Exception "Unknown task format: (x)" = ValueError \/
  exists t, Exception "Unknown task format: (x)"
            = Exception ("Unknown task format: " +:+ t) /\
    match t with EmptyString => True | String a _ => not_paren a = false end.
Proof.
  apply (parseArguments_raises ["pie"; "-v"; "(x)"]). vm_compute. reflexivity.
Defined.

Lemma parseArguments_empty_witness : parseArguments ["pie"] = OK [].
Proof. apply (proj2 (parseArguments_empty ["pie"])). simpl. lia. Defined.

Lemma parsed_option_shape_witness :
  Str.count "=" "a" = 0 /\ Str.count "=" "b" = 0.
Proof.
  apply (parsed_option_shape ["pie"; "-o"; "a=b"] [Option "a" "b"] "a" "b").
  - vm_compute. reflexivity.
  - apply list_elem_of_In. simpl. left. reflexivity.
Defined.

Lemma parsed_task_shape_witness :
  "foo" <> "" /\ all_chars not_paren "foo" = true /\ ["1"; "2"] <> [""] /\
  Forall (fun x => Str.count "," x = 0 /\ all_chars dot x = true) ["1"; "2"].
Proof.
  apply (parsed_task_shape ["pie"; "foo(1,2)"] [Task "foo" ["1"; "2"] ∅]
           "foo" ["1"; "2"] ∅).
  - vm_compute. reflexivity.
  - apply list_elem_of_In. simpl. left. reflexivity.
Defined.

Lemma parse_loop_ends_witness :
  exists fuel, fuel <= 10 /\
    parse_loop (fuel + 3) ["pie"; "foo(1,2)"] 1 []
    = Some (OK [Task "foo" ["1"; "2"] ∅]).
Proof.
  destruct (parse_loop_ends ["pie"; "foo(1,2)"]) as (fuel & Hle & H).
  exists fuel. split; [exact Hle|].
  rewrite (H (fuel + 3)) by lia. f_equal.
Defined.

Lemma parse_simple_witness :
  parseArguments ["pie"; "-v"; "-o"; "a=b"; "-h"]
  = OK [Version; Option "a" "b"; Help].
Proof. apply parse_simple. reflexivity. Defined.

Lemma TASK_RE_call_witness :
  Re.match_ TASK_RE "foo(1,2)"
  = Some (<["args" := "1,2"]> (<["name" := "foo"]> ∅)).
Proof.
  apply (TASK_RE_call "foo" "1,2" ""); [discriminate|reflexivity..].
Defined.

Lemma TASK_RE_bare_witness :
  Re.match_ TASK_RE "foo(1" = Some (<["name" := "foo"]> ∅).
Proof.
  apply (TASK_RE_bare "foo" "(1"); [discriminate|reflexivity|].
  right. right. exists "1". split; reflexivity.
Defined.

Lemma parse_after_task_ignored_witness :
  parseArguments ["pie"; "-v"; "foo(1,2)"; "-h"; "bar"]
  = parseArguments ["pie"; "-v"; "foo(1,2)"].
Proof.
  apply (parse_after_task_ignored "pie" ["-v"] [Version] "foo(1,2)"
           ["-h"; "bar"]); [reflexivity|reflexivity|discriminate].
Defined.

Lemma parse_task_call_witness :
  parseArguments ["pie"; "-o"; "x=1"; "build(1,2)"; "-v"]
  = OK [Option "x" "1"; Task "build" ["1"; "2"] ∅].
Proof.
  apply (parse_task_call "pie" ["-o"; "x=1"] [Option "x" "1"] "build" "1,2" ""
           ["-v"]); [reflexivity|discriminate|reflexivity..|simpl; lia].
Defined.

Lemma parse_task_name_witness :
  parseArguments ["pie"; "-v"; "build"; "-h"]
  = OK [Version; Task "build" [] ∅].
Proof.
  apply (parse_task_name "pie" ["-v"] [Version] "build" ["-h"]);
    [reflexivity|discriminate|reflexivity|reflexivity|discriminate].
Defined.

Lemma parse_third_argument_flag_witness :
  parseArguments ["pie"; "f(a,b,-v)"]
  = OK [Task "f" ["a"; "b"; "-v"] ∅; Version].
Proof.
  apply (parse_third_argument_flag "pie" "f" "a" "b" "-v" Version []);
    [discriminate|reflexivity..].
Defined.

Lemma option_set_get_witness :
  exists w', Option_execute "x" "1" world0 = Ret tt w' /\
    options w' !! "x" = Some "1" /\
    (forall n, n <> "x" -> options w' !! n = options world0 !! n) /\
    tasks w' = tasks world0 /\ context w' = context world0 /\
    trace w' = trace world0.
Proof. apply (proj1 (option_set_get "x" "1" world0)). reflexivity. Defined.

Lemma task_registered_runs_witness :
  exists w1,
    (exists wrap, task echo_call echo_name [] ("greet", "hello") echo_world
                  = Ret wrap w1) /\
    tasks w1 !! "build" = tasks echo_world !! "build" /\
    Task_execute echo_call "greet" ["a"] ∅ w1
    = echo_call ("greet", "hello") ["a"] ∅ w1.
Proof.
  destruct (task_registered_runs echo_call echo_name [] ("greet", "hello")
              echo_world) as (wrap & w1 & Ht & Hrun & Hother & _).
  exists w1. split; [eauto|]. split; [apply Hother; discriminate|].
  apply (Hrun ["a"] ∅).
Defined.

Lemma task_registered_last_witness :
  Task_execute echo_call "greet" ["a"] ∅
    (mkWorld ∅ ∅ (<["greet" := ("greet", "hi")]>
                    (<["greet" := ("greet", "hello")]> ∅)) [])
  = echo_call ("greet", "hi") ["a"] ∅
      (mkWorld ∅ ∅ (<["greet" := ("greet", "hi")]>
                      (<["greet" := ("greet", "hello")]> ∅)) []).
Proof.
  eapply (task_registered_last echo_call echo_name ("greet", "hello")
            ("greet", "hi") echo_world); reflexivity.
Defined.

Lemma execute_frame_witness :
  tasks world_x = tasks world0 /\ context world_x = context world0 /\
  dom (options world0) ⊆ dom (options world_x) /\
  (exists evs, trace world_x = trace world0 ++ evs) /\
  ((forall name value, Option "x" "1" <> Option name value) ->
   options world_x = options world0) /\
  (Option "x" "1" = Version \/ Option "x" "1" = Help ->
   execute no_call false (fun _ => true) (Option "x" "1") world0
   = Ret tt world_x).
Proof.
  apply (execute_frame no_call false (fun _ => true) (Option "x" "1") world0).
  - intros name args kwargs. discriminate.
  - reflexivity.
Defined.

Lemma main_cases_witness :
  main no_call empty_module false (fun _ => true) ["pie"; "(x"] world0
  = Raised (Exception "Unknown task format: (x") world0 /\
  main no_call empty_module false (fun _ => true) ["pie"] world0
  = Help_execute world0 /\
  main no_call empty_module false (fun _ => true) ["pie"; "-v"] world0
  = match import_pie_tasks empty_module world0 with
    | Ret _ w1 => for_ [Version] (execute no_call false (fun _ => true)) w1
    | Raised e w1 => Raised e w1
    end.
Proof.
  split; [|split].
  - apply (proj1 (main_cases no_call empty_module false (fun _ => true)
                    ["pie"; "(x"] world0)). vm_compute. reflexivity.
  - apply (proj1 (proj2 (main_cases no_call empty_module false (fun _ => true)
                           ["pie"] world0))). simpl. lia.
  - apply (proj2 (proj2 (main_cases no_call empty_module false (fun _ => true)
                           ["pie"; "-v"] world0))); [simpl; lia|].
    vm_compute. reflexivity.
Defined.

Lemma main_sets_option_witness :
  main no_call empty_module false (fun _ => true) ["pie"; "-o"; "x=1"] world0
  = Ret tt (mkWorld (<["x" := "1"]> ∅) ∅ ∅ [Import "pie_tasks"]).
Proof.
  apply (main_sets_option no_call empty_module false (fun _ => true)
           "pie" "x" "1" world0 (mkWorld ∅ ∅ ∅ [Import "pie_tasks"]));
    reflexivity.
Defined.

Lemma main_runs_task_witness :
  main echo_call echo_module false (fun _ => true) ["pie"; "greet(a,b)"]
       echo_world
  = Ret tt (mkWorld ∅ ∅ (<["greet" := ("greet", "hello")]> ∅)
              [Import "pie_tasks"; Print "hello"; Print "a"; Print "b"]).
Proof.
  etransitivity.
  - apply (main_runs_task echo_call echo_module false (fun _ => true)
             "pie" "greet" "a,b" echo_world
             (mkWorld ∅ ∅ (<["greet" := ("greet", "hello")]> ∅)
                      [Import "pie_tasks"]));
      [discriminate|reflexivity|reflexivity|simpl; lia|reflexivity].
  - vm_compute. reflexivity.
Defined.

Lemma parse_error_behind_simple_witness :
  parseArguments ["pie"; "-v"; "-o"] = Raise IndexError /\
  parseArguments ["pie"; "-v"; "-o"; "ab"; "-h"] = Raise ValueError /\
  parseArguments ["pie"; "-v"; "(x)"; "-h"]
  = Raise (Exception "Unknown task format: (x)").
Proof.
  destruct (parse_error_behind_simple "pie" ["-v"] [Version] eq_refl)
    as (H1 & H2 & H3).
  split; [exact H1|]. split.
  - apply (H2 "ab" ["-h"]). simpl. lia.
  - apply (H3 "(x)" ["-h"]). reflexivity.
Defined.

Lemma actions_frame_witness :
  tasks world_x = tasks world0 /\ context world_x = context world0 /\
  dom (options world0) ⊆ dom (options world_x) /\
  exists evs, trace world_x = trace world0 ++ evs.
Proof.
  apply (actions_frame no_call false (fun _ => false)
           [Option "x" "1"; CreateBatchFile; Version] world0 world_x).
  - repeat constructor; intros name args kwargs; discriminate.
  - reflexivity.
Defined.
